(** * golikejs: channels, select, cancellation contexts and Once

    A shallow embedding of the coordination primitives of the golikejs
    library (TypeScript) together with the properties stated about them.

    The runtime is single-threaded and cooperative: the body of every
    method below runs to completion without interleaving, so each method is
    modelled as a function on the object's private fields.  A promise
    created by a blocked operation is identified by a [PromiseId]; calling
    the captured [resolve] closure of a waiter is recorded as a [Wake]
    event in the order in which the source performs the calls. *)

From Stdlib Require Import ZArith Lia.
From stdpp Require Import base list functions.

Set Default Proof Using "Type".

(** Identity of a promise whose [resolve] closure sits in a waiter queue. *)
Definition PromiseId := nat.

(** ** Channel *)

Module Chan.
Section Channel.
Context {T : Type}.

(** [{ value: T; resolve: () => void }] *)
Record SendWaiter := mkSendWaiter { sw_value : T; sw_resolve : PromiseId }.

(** [{ resolve: (value: [T, true] | [undefined, false]) => void }] *)
Record ReceiveWaiter := mkReceiveWaiter { rw_resolve : PromiseId }.

(** The private fields of [Channel<T>].  A slot of the ring buffer holds
    [T | undefined]; [undefined] is [None].  [buffer] is [null] ([None])
    for a channel of capacity 0. *)
Record Channel := mkChannel {
  buffer : option (list (option T));
  capacity : nat;
  head : nat;
  tail : nat;
  count : nat;
  closed : bool;
  sendWaiters : list SendWaiter;
  receiveWaiters : list ReceiveWaiter
}.

(** A call of a waiter's [resolve] closure. *)
Inductive Wake :=
  | WakeSender (p : PromiseId)
  | WakeReceiver (p : PromiseId) (value : option T) (ok : bool).

(** How the promise returned by [send] stands when the call returns. *)
Inductive SendResult :=
  | SendDone
  | SendThrows
  | SendPending (p : PromiseId).

(** How the promise returned by [receive] stands when the call returns:
    fulfilled with the pair [[value, ok]], or pending. *)
Inductive ReceiveResult :=
  | Received (value : option T) (ok : bool)
  | ReceivePending (p : PromiseId).

(** [buf[i]] on a JS array: reading past the end yields [undefined]. *)
Definition js_get (l : list (option T)) (i : nat) : option T :=
  match l !! i with Some x => x | None => None end.

(** [buf[i] = x] on a JS array: writing past the end grows the array. *)
Definition js_set (l : list (option T)) (i : nat) (x : option T) : list (option T) :=
  if decide (i < length l) then <[i := x]> l
  else l ++ replicate (i - length l) None ++ [x].

(** [this.#buffer![i]] and [this.#buffer![i] = x].  The non-null assertion
    is only reached with [capacity > 0], where the constructor allocated
    the array; on [null] nothing is stored. *)
Definition buf_get (b : option (list (option T))) (i : nat) : option T :=
  match b with Some l => js_get l i | None => None end.

Definition buf_set (b : option (list (option T))) (i : nat) (x : option T)
  : option (list (option T)) :=
  match b with Some l => Some (js_set l i x) | None => None end.

(** [constructor(capacity = 0)]: [None] is the thrown
    "capacity must be non-negative" error. *)
Definition new_Channel (cap : Z) : option Channel :=
  if (cap <? 0)%Z then None
  else Some {| buffer := if (0 <? cap)%Z then Some (replicate (Z.to_nat cap) None) else None;
               capacity := Z.to_nat cap;
               head := 0; tail := 0; count := 0;
               closed := false;
               sendWaiters := []; receiveWaiters := [] |}.

(** Field updates. *)
Definition with_sendWaiters (ch : Channel) (ws : list SendWaiter) : Channel :=
  {| buffer := buffer ch; capacity := capacity ch; head := head ch; tail := tail ch;
     count := count ch; closed := closed ch;
     sendWaiters := ws; receiveWaiters := receiveWaiters ch |}.

Definition with_receiveWaiters (ch : Channel) (ws : list ReceiveWaiter) : Channel :=
  {| buffer := buffer ch; capacity := capacity ch; head := head ch; tail := tail ch;
     count := count ch; closed := closed ch;
     sendWaiters := sendWaiters ch; receiveWaiters := ws |}.

(** [buf[tail] = value; tail = (tail + 1) % capacity; count++].  The
    remainder is only taken with [capacity > 0] on the states the
    constructor and the methods produce (see [Inv] below). *)
Definition enqueue (ch : Channel) (value : T) : Channel :=
  {| buffer := buf_set (buffer ch) (tail ch) (Some value);
     capacity := capacity ch;
     head := head ch;
     tail := (tail ch + 1) mod capacity ch;
     count := count ch + 1;
     closed := closed ch;
     sendWaiters := sendWaiters ch; receiveWaiters := receiveWaiters ch |}.

(** [buf[head] = undefined; head = (head + 1) % capacity; count--] *)
Definition dequeue (ch : Channel) : Channel :=
  {| buffer := buf_set (buffer ch) (head ch) None;
     capacity := capacity ch;
     head := (head ch + 1) mod capacity ch;
     tail := tail ch;
     count := count ch - 1;
     closed := closed ch;
     sendWaiters := sendWaiters ch; receiveWaiters := receiveWaiters ch |}.

(** The "waiting receiver" block of [send] and [trySend]: shift the first
    receiver and resolve it with [[value, true]]. *)
Definition handoff (ch : Channel) (value : T) : option (Channel * list Wake) :=
  match receiveWaiters ch with
  | waiter :: rest =>
      Some (with_receiveWaiters ch rest, [WakeReceiver (rw_resolve waiter) (Some value) true])
  | [] => None
  end.

(** The "buffer has space" block of [send] and [trySend]. *)
Definition store (ch : Channel) (value : T) : option Channel :=
  if bool_decide (0 < capacity ch) && bool_decide (count ch < capacity ch)
  then Some (enqueue ch value)
  else None.

(** [async send(value)].  [p] names the promise created in the last
    branch.  The source repeats both the hand-off block and the buffer
    block; the repetition is kept. *)
Definition send (ch : Channel) (value : T) (p : PromiseId)
  : Channel * SendResult * list Wake :=
  if closed ch then (ch, SendThrows, [])
  else
    match handoff ch value with
    | Some (ch', wakes) => (ch', SendDone, wakes)
    | None =>
    match handoff ch value with
    | Some (ch', wakes) => (ch', SendDone, wakes)
    | None =>
    match store ch value with
    | Some ch' => (ch', SendDone, [])
    | None =>
    match store ch value with
    | Some ch' => (ch', SendDone, [])
    | None =>
        (with_sendWaiters ch (sendWaiters ch ++ [mkSendWaiter value p]), SendPending p, [])
    end end end end.

(** [#processSendWaiters()]: every iteration of the [while] loop shifts one
    sender, so the loop is a recursion on the queue it consumes. *)
Fixpoint processSendWaiters_loop (ws : list SendWaiter) (ch : Channel)
  : Channel * list Wake :=
  match ws with
  | [] => (with_sendWaiters ch [], [])
  | waiter :: rest =>
      if bool_decide (count ch < capacity ch) then
        let '(ch', wakes) := processSendWaiters_loop rest (enqueue ch (sw_value waiter)) in
        (ch', WakeSender (sw_resolve waiter) :: wakes)
      else (with_sendWaiters ch ws, [])
  end.

Definition processSendWaiters (ch : Channel) : Channel * list Wake :=
  processSendWaiters_loop (sendWaiters ch) ch.

(** The "buffer has values" block shared by [receive] and [tryReceive]. *)
Definition take_buffered (ch : Channel) : option (Channel * option T * list Wake) :=
  if bool_decide (0 < count ch) then
    let value := buf_get (buffer ch) (head ch) in
    let '(ch', wakes) := processSendWaiters (dequeue ch) in
    Some (ch', value, wakes)
  else None.

(** The "waiting sender" block shared by [receive] and [tryReceive]. *)
Definition rendezvous (ch : Channel) : option (Channel * option T * list Wake) :=
  match sendWaiters ch with
  | waiter :: rest =>
      Some (with_sendWaiters ch rest, Some (sw_value waiter), [WakeSender (sw_resolve waiter)])
  | [] => None
  end.

(** [async receive()].  [p] names the promise created in the last branch.
    The source tests [closed] twice; the repetition is kept. *)
Definition receive (ch : Channel) (p : PromiseId)
  : Channel * ReceiveResult * list Wake :=
  match take_buffered ch with
  | Some (ch', value, wakes) => (ch', Received value true, wakes)
  | None =>
  match rendezvous ch with
  | Some (ch', value, wakes) => (ch', Received value true, wakes)
  | None =>
      if closed ch then (ch, Received None false, [])
      else if closed ch then (ch, Received None false, [])
      else (with_receiveWaiters ch (receiveWaiters ch ++ [mkReceiveWaiter p]),
            ReceivePending p, [])
  end end.

(** [close()].  The [forEach] over the queued senders has an empty body;
    the queue is then truncated.  Every queued receiver is resolved with
    [[undefined, false]]. *)
Definition close (ch : Channel) : Channel * list Wake :=
  if closed ch then (ch, [])
  else
    ({| buffer := buffer ch; capacity := capacity ch; head := head ch; tail := tail ch;
        count := count ch; closed := true;
        sendWaiters := []; receiveWaiters := [] |},
     (λ waiter, WakeReceiver (rw_resolve waiter) None false) <$> receiveWaiters ch).

(** [tryReceive()] returns the pair [[value, ok]]. *)
Definition tryReceive (ch : Channel) : Channel * (option T * bool) * list Wake :=
  match take_buffered ch with
  | Some (ch', value, wakes) => (ch', (value, true), wakes)
  | None =>
  match rendezvous ch with
  | Some (ch', value, wakes) => (ch', (value, true), wakes)
  | None => (ch, (None, false), [])
  end end.

(** [trySend(value)] *)
Definition trySend (ch : Channel) (value : T) : Channel * bool * list Wake :=
  if closed ch then (ch, false, [])
  else
    match handoff ch value with
    | Some (ch', wakes) => (ch', true, wakes)
    | None =>
    match store ch value with
    | Some ch' => (ch', true, [])
    | None => (ch, false, [])
    end end.

(** [hasData()] and [canSend()], used by [select]. *)
Definition hasData (ch : Channel) : bool :=
  bool_decide (0 < count ch) || bool_decide (0 < length (sendWaiters ch)).

Definition canSend (ch : Channel) : bool :=
  bool_decide (0 < length (receiveWaiters ch))
  || (bool_decide (0 < capacity ch) && bool_decide (count ch < capacity ch)).

(** The values held in the ring buffer, oldest first: the [count] slots
    starting at [head], wrapping around. *)
Definition buffered (ch : Channel) : list (option T) :=
  (λ k, buf_get (buffer ch) ((head ch + k) mod capacity ch)) <$> seq 0 (count ch).

(** The ring buffer is well formed: at most [capacity] values are held,
    the array has [capacity] slots ([null] for capacity 0), and [tail] runs
    [count] slots ahead of [head]. *)
Record Ring (ch : Channel) : Prop := mkRing {
  ring_count : count ch ≤ capacity ch;
  ring_null : capacity ch = 0 → buffer ch = None;
  ring_slots : 0 < capacity ch →
    ∃ l, buffer ch = Some l ∧ length l = capacity ch ∧ head ch < capacity ch
         ∧ tail ch = (head ch + count ch) mod capacity ch
}.

(** The state invariant of a channel: the ring is well formed; receivers
    wait only on an empty buffer; a closed channel has no waiters; senders
    wait only on a full buffer with no receiver present. *)
Record Inv (ch : Channel) : Prop := mkInv {
  inv_ring : Ring ch;
  inv_rx : 0 < count ch → receiveWaiters ch = [];
  inv_closed : closed ch = true → sendWaiters ch = [] ∧ receiveWaiters ch = [];
  inv_tx : sendWaiters ch ≠ [] → count ch = capacity ch ∧ receiveWaiters ch = []
}.

(** One call of a public method, with the identity of the promise a
    blocking call may create. *)
Inductive Op :=
  | OpSend (value : T) (p : PromiseId)
  | OpReceive (p : PromiseId)
  | OpTrySend (value : T)
  | OpTryReceive
  | OpClose.

Definition step (ch : Channel) (op : Op) : Channel * list Wake :=
  match op with
  | OpSend value p => let '(ch', _, wakes) := send ch value p in (ch', wakes)
  | OpReceive p => let '(ch', _, wakes) := receive ch p in (ch', wakes)
  | OpTrySend value => let '(ch', _, wakes) := trySend ch value in (ch', wakes)
  | OpTryReceive => let '(ch', _, wakes) := tryReceive ch in (ch', wakes)
  | OpClose => close ch
  end.

(** Running a sequence of method calls; the wakes are concatenated. *)
Fixpoint run (ch : Channel) (ops : list Op) : Channel * list Wake :=
  match ops with
  | [] => (ch, [])
  | op :: rest =>
      let '(ch1, w1) := step ch op in
      let '(ch2, w2) := run ch1 rest in
      (ch2, w1 ++ w2)
  end.

(** [trySend] of each value in turn, collecting the returned booleans. *)
Fixpoint trySend_each (ch : Channel) (values : list T) : Channel * list bool :=
  match values with
  | [] => (ch, [])
  | value :: rest =>
      let '(ch1, ok, _) := trySend ch value in
      let '(ch2, oks) := trySend_each ch1 rest in
      (ch2, ok :: oks)
  end.

(** [send] of each [(value, promise)] in turn, collecting results and wakes. *)
Fixpoint send_each (ch : Channel) (sends : list (T * PromiseId))
  : Channel * list SendResult * list Wake :=
  match sends with
  | [] => (ch, [], [])
  | (value, p) :: rest =>
      let '(ch1, r, w1) := send ch value p in
      let '(ch2, rs, w2) := send_each ch1 rest in
      (ch2, r :: rs, w1 ++ w2)
  end.

(** [receive] once per promise identity in turn, collecting the results. *)
Fixpoint receive_each (ch : Channel) (ps : list PromiseId)
  : Channel * list ReceiveResult :=
  match ps with
  | [] => (ch, [])
  | p :: rest =>
      let '(ch1, r, _) := receive ch p in
      let '(ch2, rs) := receive_each ch1 rest in
      (ch2, r :: rs)
  end.

End Channel.
Global Arguments Channel : clear implicits.
Global Arguments SendWaiter : clear implicits.
Global Arguments Wake : clear implicits.
Global Arguments SendResult : clear implicits.
Global Arguments ReceiveResult : clear implicits.
Global Arguments Op : clear implicits.
End Chan.

(** ** Select *)

Module Sel.
Import Chan.
Section Select.
Context {T : Type}.

(** A [channel] field holds a reference to a channel object; every
    reference denotes an object, so the store is a total map. *)
Definition ChanRef := nat.

(** An [action] (or [default]) callback, named by an identifier. *)
Definition ActionId := nat.

(** [ReceiveCase | SendCase | DefaultCase] *)
Inductive SelectCase :=
  | ReceiveCase (channel : ChanRef) (action : ActionId)
  | SendCase (channel : ChanRef) (value : T) (action : ActionId)
  | DefaultCase (default : ActionId).

(** The callback [select] invoked, with its arguments. *)
Inductive Ran :=
  | RanReceive (action : ActionId) (value : option T) (ok : bool)
  | RanSend (action : ActionId)
  | RanDefault (default : ActionId).

Inductive SelectError :=
  | NoCasesProvided
  | MultipleDefaultCases
  | SendOnClosedChannel.

(** The promise returned by [select] once the microtasks queued by the
    call itself have run: rejected, fulfilled after running one callback,
    or still waiting for one of the operations it started. *)
Inductive SelectResult :=
  | SelectThrows (e : SelectError)
  | SelectRan (r : Ran)
  | SelectWaiting.

(** A channel operation started by [select]. *)
Inductive Started :=
  | StartedReceive (channel : ChanRef) (p : PromiseId)
  | StartedSend (channel : ChanRef) (value : T) (p : PromiseId).

(** The channel objects, the next unused promise identity, and what has
    happened so far. *)
Record World := mkWorld {
  chan : ChanRef → Channel T;
  nextPromise : PromiseId;
  started : list Started;
  woken : list (Wake T)
}.

(** The three locals of the classification loop. *)
Record Classified := mkClassified {
  receiveCases : list (ChanRef * ActionId);
  sendCases : list (ChanRef * T * ActionId);
  defaultCase : option ActionId
}.

(** The [for (const case_ of cases)] loop; [None] is the thrown
    "multiple default cases not allowed" error. *)
Fixpoint classify (cases : list SelectCase) (acc : Classified) : option Classified :=
  match cases with
  | [] => Some acc
  | DefaultCase d :: rest =>
      match defaultCase acc with
      | Some _ => None
      | None => classify rest (mkClassified (receiveCases acc) (sendCases acc) (Some d))
      end
  | SendCase c v a :: rest =>
      classify rest (mkClassified (receiveCases acc) (sendCases acc ++ [(c, v, a)]) (defaultCase acc))
  | ReceiveCase c a :: rest =>
      classify rest (mkClassified (receiveCases acc ++ [(c, a)]) (sendCases acc) (defaultCase acc))
  end.

(** [receiveCases.some(c => c.channel.hasData()) ||
     sendCases.some(c => c.channel.canSend())] *)
Definition hasReadyOperation (w : World) (cl : Classified) : bool :=
  existsb (λ c, hasData (chan w c.1)) (receiveCases cl)
  || existsb (λ c, canSend (chan w c.1.1)) (sendCases cl).

(** One entry of the [promises] array. *)
Inductive Racer :=
  | RacerReceive (action : ActionId) (r : ReceiveResult T)
  | RacerSend (action : ActionId) (r : SendResult).

(** [case_.channel.receive()] for every receive case, in order. *)
Fixpoint start_receives (w : World) (cs : list (ChanRef * ActionId)) : World * list Racer :=
  match cs with
  | [] => (w, [])
  | (c, a) :: rest =>
      let p := nextPromise w in
      let '(ch', r, wakes) := receive (chan w c) p in
      let w1 := mkWorld (<[c := ch']> (chan w)) (S p)
                        (started w ++ [StartedReceive c p]) (woken w ++ wakes) in
      let '(w2, rs) := start_receives w1 rest in
      (w2, RacerReceive a r :: rs)
  end.

(** [case_.channel.send(case_.value)] for every send case, in order. *)
Fixpoint start_sends (w : World) (cs : list (ChanRef * T * ActionId)) : World * list Racer :=
  match cs with
  | [] => (w, [])
  | (c, v, a) :: rest =>
      let p := nextPromise w in
      let '(ch', r, wakes) := send (chan w c) v p in
      let w1 := mkWorld (<[c := ch']> (chan w)) (S p)
                        (started w ++ [StartedSend c v p]) (woken w ++ wakes) in
      let '(w2, rs) := start_sends w1 rest in
      (w2, RacerSend a r :: rs)
  end.

(** [await Promise.race(promises)] followed by the winner's action.  The
    promises already settled when [select] has built the array settle the
    race in array order; a rejected [send] rejects the race. *)
Fixpoint race (rs : list Racer) : SelectResult :=
  match rs with
  | [] => SelectWaiting
  | RacerReceive a (Received value ok) :: _ => SelectRan (RanReceive a value ok)
  | RacerSend a SendDone :: _ => SelectRan (RanSend a)
  | RacerSend a SendThrows :: _ => SelectThrows SendOnClosedChannel
  | RacerReceive _ (ReceivePending _) :: rest => race rest
  | RacerSend _ (SendPending _) :: rest => race rest
  end.

(** [async function select(cases)] *)
Definition select (w : World) (cases : list SelectCase) : World * SelectResult :=
  if bool_decide (length cases = 0) then (w, SelectThrows NoCasesProvided)
  else
    match classify cases (mkClassified [] [] None) with
    | None => (w, SelectThrows MultipleDefaultCases)
    | Some cl =>
        let slow :=
          let '(w1, rs1) := start_receives w (receiveCases cl) in
          let '(w2, rs2) := start_sends w1 (sendCases cl) in
          (w2, race (rs1 ++ rs2)) in
        match defaultCase cl with
        | Some d => if negb (hasReadyOperation w cl) then (w, SelectRan (RanDefault d)) else slow
        | None => slow
        end
    end.

(** The receive, send and default cases of a case list, in order. *)
Definition receives_of (cases : list SelectCase) : list (ChanRef * ActionId) :=
  omap (λ c, match c with ReceiveCase ch a => Some (ch, a) | _ => None end) cases.

Definition sends_of (cases : list SelectCase) : list (ChanRef * T * ActionId) :=
  omap (λ c, match c with SendCase ch v a => Some (ch, v, a) | _ => None end) cases.

Definition defaults_of (cases : list SelectCase) : list ActionId :=
  omap (λ c, match c with DefaultCase d => Some d | _ => None end) cases.

(** "The receive case has data immediately available" and "the send case
    can send immediately", as [hasData] and [canSend] decide them. *)
Definition case_ready (w : World) (c : SelectCase) : bool :=
  match c with
  | ReceiveCase ch _ => hasData (chan w ch)
  | SendCase ch _ _ => canSend (chan w ch)
  | DefaultCase _ => false
  end.

End Select.
Global Arguments SelectCase : clear implicits.
Global Arguments World : clear implicits.
Global Arguments Classified : clear implicits.
Global Arguments Racer : clear implicits.
Global Arguments Ran : clear implicits.
Global Arguments SelectResult : clear implicits.
Global Arguments Started : clear implicits.
End Sel.

(** ** Cancellation contexts *)

Module Ctx.

(** Error objects.  [OtherError] stands for an error supplied by the
    caller, [WrappedError] for [new Error(String(reason))]. *)
Inductive Error :=
  | ContextCancelledError
  | ContextTimeoutError
  | OtherError (tag : nat)
  | WrappedError (reason : nat).

(** State of the [Promise<void>] behind [#donePromise]. *)
Inductive PromiseState := Pending | Resolved.

(** The [#resolve] field: the resolver captured from [#donePromise], or
    the empty function [() => {}]. *)
Inductive Resolver := ResolveDonePromise | Noop.

(** The private fields of [DefaultContext]; an unset field is [None]. *)
Record DefaultContext := mkContext {
  donePromise : option PromiseState;
  resolve : option Resolver;
  err : option Error
}.

(** The arguments of a [cancel] call: none at all
    ([arguments.length === 0]) or one, possibly [undefined]. *)
Inductive CancelArgs :=
  | NoArgument
  | Argument (e : option Error).

Definition fresh : DefaultContext := mkContext None None None.

(** [done()]: the state afterwards; the returned promise is [#donePromise]. *)
Definition done (c : DefaultContext) : DefaultContext :=
  match donePromise c with
  | Some _ => c
  | None =>
      match err c with
      | Some _ => mkContext (Some Resolved) (Some Noop) (err c)
      | None => mkContext (Some Pending) (Some ResolveDonePromise) (err c)
      end
  end.

(** [this.#resolve()]: resolving an already resolved promise changes nothing. *)
Definition call (r : Resolver) (p : option PromiseState) : option PromiseState :=
  match r with
  | ResolveDonePromise => Some Resolved
  | Noop => p
  end.

(** [cancel(err?)] *)
Definition cancel (c : DefaultContext) (args : CancelArgs) : DefaultContext :=
  match err c with
  | Some _ => c
  | None =>
      let e := match args with
               | NoArgument => Some ContextCancelledError
               | Argument e => e
               end in
      match resolve c with
      | Some r => mkContext (call r (donePromise c)) (resolve c) e
      | None => mkContext (Some Resolved) (Some Noop) e
      end
  end.

(** A sequence of [cancel] calls on one context. *)
Definition cancel_all (c : DefaultContext) (calls : list CancelArgs) : DefaultContext :=
  foldl cancel c calls.

(** Done: the completion signal has been settled. *)
Definition is_done (c : DefaultContext) : Prop := donePromise c = Some Resolved.

(** *** The context objects and the scheduler *)

Definition CtxRef := nat.
Definition TimerId := nat.

(** Callbacks attached to a done promise with [then] or [finally]. *)
Inductive Job :=
  | Propagate (child parent : CtxRef)
  | ClearTimeout (id : TimerId).

(** A context object and the callbacks waiting on its done promise. *)
Record Obj := mkObj { fields : DefaultContext; reactions : list Job }.

(** The objects, the microtask queue and the armed timers.  A reference
    below [next] denotes an allocated object. *)
Record Heap := mkHeap {
  obj : CtxRef → Obj;
  next : CtxRef;
  microtasks : list Job;
  timers : list (TimerId * CtxRef);
  nextTimer : TimerId
}.

Definition set_obj (h : Heap) (r : CtxRef) (o : Obj) : Heap :=
  mkHeap (<[r := o]> (obj h)) (next h) (microtasks h) (timers h) (nextTimer h).

Definition enqueue_jobs (h : Heap) (js : list Job) : Heap :=
  mkHeap (obj h) (next h) (microtasks h ++ js) (timers h) (nextTimer h).

(** [ctx.err()] *)
Definition h_err (h : Heap) (r : CtxRef) : option Error := err (fields (obj h r)).

(** [ctx.cancel(...)]: when the call resolves a pending done promise, the
    callbacks waiting on it are queued as microtasks. *)
Definition h_cancel (h : Heap) (r : CtxRef) (args : CancelArgs) : Heap :=
  let o := obj h r in
  let c' := cancel (fields o) args in
  match donePromise (fields o), donePromise c' with
  | Some Pending, Some Resolved =>
      enqueue_jobs (set_obj h r (mkObj c' [])) (reactions o)
  | _, _ => set_obj h r (mkObj c' (reactions o))
  end.

(** [ctx.done().then(job)] (or [.finally(job)]): on a resolved promise the
    callback is queued at once, otherwise it waits on the promise. *)
Definition h_done_then (h : Heap) (r : CtxRef) (job : Job) : Heap :=
  let o := obj h r in
  let c' := done (fields o) in
  match donePromise c' with
  | Some Resolved => enqueue_jobs (set_obj h r (mkObj c' (reactions o))) [job]
  | _ => set_obj h r (mkObj c' (reactions o ++ [job]))
  end.

(** [new DefaultContext(parent?)] *)
Definition new_DefaultContext (h : Heap) (parent : option CtxRef) : Heap * CtxRef :=
  let this := next h in
  let h0 := mkHeap (<[this := mkObj fresh []]> (obj h)) (S this)
                   (microtasks h) (timers h) (nextTimer h) in
  match parent with
  | None => (h0, this)
  | Some p =>
      match h_err h0 p with
      | Some parentErr => (h_cancel h0 this (Argument (Some parentErr)), this)
      | None => (h_done_then h0 p (Propagate this p), this)
      end
  end.

(** [withCancel(parent)]; the returned [CancelFunc] is [cancelFunc]. *)
Definition withCancel (h : Heap) (parent : CtxRef) : Heap * CtxRef :=
  new_DefaultContext h (Some parent).

Definition cancelFunc (h : Heap) (ctx : CtxRef) : Heap :=
  h_cancel h ctx (Argument (Some ContextCancelledError)).

(** [withCancelCause(parent)]; the returned function is [cancelCauseFunc]. *)
Definition withCancelCause (h : Heap) (parent : CtxRef) : Heap * CtxRef :=
  new_DefaultContext h (Some parent).

Definition cancelCauseFunc (h : Heap) (ctx : CtxRef) (e : option Error) : Heap :=
  h_cancel h ctx (Argument e).

(** [withTimeout(parent, timeoutMs)]: arms a timer and registers its
    disarming on the context's done promise. *)
Definition withTimeout (h : Heap) (parent : CtxRef) : Heap * CtxRef :=
  let '(h1, ctx) := new_DefaultContext h (Some parent) in
  let id := nextTimer h1 in
  let h2 := mkHeap (obj h1) (next h1) (microtasks h1)
                   (timers h1 ++ [(id, ctx)]) (S id) in
  (h_done_then h2 ctx (ClearTimeout id), ctx).

(** The timer callback; a cleared timer never fires. *)
Definition fire_timer (h : Heap) (id : TimerId) : Heap :=
  match list_find (λ t, t.1 = id) (timers h) with
  | Some (_, (_, ctx)) =>
      let h1 := mkHeap (obj h) (next h) (microtasks h)
                       (filter (λ t, t.1 ≠ id) (timers h)) (nextTimer h) in
      h_cancel h1 ctx (Argument (Some ContextTimeoutError))
  | None => h
  end.

(** [watchPromise(parent, promise)]; the two callbacks given to
    [promise.then] are [promise_fulfilled] and [promise_rejected]. *)
Definition watchPromise (h : Heap) (parent : CtxRef) : Heap * CtxRef :=
  new_DefaultContext h (Some parent).

Definition promise_fulfilled (h : Heap) (ctx : CtxRef) : Heap :=
  h_cancel h ctx (Argument None).

(** A rejection reason: an [Error], or some other value. *)
Inductive Reason := ReasonError (e : Error) | ReasonOther (v : nat).

Definition promise_rejected (h : Heap) (ctx : CtxRef) (reason : Reason) : Heap :=
  let error := match reason with
               | ReasonError e => e
               | ReasonOther v => WrappedError v
               end in
  h_cancel h ctx (Argument (Some error)).

(** Running one callback, and one turn of the microtask queue. *)
Definition run_job (h : Heap) (j : Job) : Heap :=
  match j with
  | Propagate child parent => h_cancel h child (Argument (h_err h parent))
  | ClearTimeout id =>
      mkHeap (obj h) (next h) (microtasks h)
             (filter (λ t, t.1 ≠ id) (timers h)) (nextTimer h)
  end.

Definition run_microtask (h : Heap) : Heap :=
  match microtasks h with
  | [] => h
  | j :: rest =>
      run_job (mkHeap (obj h) (next h) rest (timers h) (nextTimer h)) j
  end.

(** The heap holding only the background context, at reference 0. *)
Definition initial : Heap :=
  mkHeap (λ _, mkObj fresh []) 1 [] [] 0.

(** The ways of deriving a child that the module exports. *)
Inductive Derive := ByConstructor | ByWithCancel | ByWithCancelCause | ByWithTimeout | ByWatchPromise.

Definition derive (d : Derive) (h : Heap) (parent : CtxRef) : Heap * CtxRef :=
  match d with
  | ByConstructor => new_DefaultContext h (Some parent)
  | ByWithCancel => withCancel h parent
  | ByWithCancelCause => withCancelCause h parent
  | ByWithTimeout => withTimeout h parent
  | ByWatchPromise => watchPromise h parent
  end.

End Ctx.

(** ** Once *)

Module OnceM.

(** Values returned by a guarded function, and errors it throws. *)
Inductive Value := VUndefined | VResult (n : nat).
Definition Error := nat.

Inductive Outcome := Fulfilled (v : Value) | Rejected (e : Error).
Inductive PromiseState := Pending | Settled (o : Outcome).

(** What a guarded function does when it is called: it may call [do] on
    the same [Once] again ([Reenter g], with [g] the function it passes),
    wait for something else ([Await], an async function only), and ends by
    returning or throwing. *)
Inductive Body :=
  | Return (v : Value)
  | Throw (e : Error)
  | Await (k : Body)
  | Reenter (g : Body) (k : Body).

(** The private fields of [Once]: [#state] is 0 (not started), 1 (running)
    or 2 (done). *)
Record Once := mkOnce { state : nat; promise : option PromiseId }.

(** Who called [do]: code outside the guarded function, or the guarded
    function itself while it runs. *)
Inductive Caller := Outside | Nested.

(** One [Once] object together with the promises of the async closures it
    started, the closures suspended at their [await] (with what remains of
    the guarded function), the number of calls of a guarded function so
    far, and the value [this.#promise] each [do] call returned. *)
Record Machine := mkMachine {
  once : Once;
  settled : PromiseId → PromiseState;
  nextPromise : PromiseId;
  invocations : nat;
  suspended : list (PromiseId * Body);
  returned : list (Caller * option PromiseId)
}.

Definition initial : Machine :=
  mkMachine (mkOnce 0 None) (λ _, Pending) 0 0 [] [].

Definition set_once (m : Machine) (o : Once) : Machine :=
  mkMachine o (settled m) (nextPromise m) (invocations m) (suspended m) (returned m).

(** [return this.#promise] *)
Definition return_promise (who : Caller) (m : Machine) : Machine :=
  mkMachine (once m) (settled m) (nextPromise m) (invocations m) (suspended m)
            (returned m ++ [(who, promise (once m))]).

(** The [finally] block followed by the settlement of the closure's promise. *)
Definition finish (p : PromiseId) (o : Outcome) (m : Machine) : Machine :=
  mkMachine (mkOnce 2 (promise (once m))) (<[p := Settled o]> (settled m))
            (nextPromise m) (invocations m) (suspended m) (returned m).

Definition suspend (p : PromiseId) (k : Body) (m : Machine) : Machine :=
  mkMachine (once m) (settled m) (nextPromise m) (invocations m)
            (suspended m ++ [(p, k)]) (returned m).

(** [async do(f)], given how a guarded function runs inside the closure
    with promise [p]. *)
Definition do_with (run : Body → PromiseId → Machine → Machine)
    (who : Caller) (f : Body) (m : Machine) : Machine :=
  match state (once m) with
  | 2 => return_promise who m
  | 0 =>
      let m1 := set_once m (mkOnce 1 (promise (once m))) in
      let p := nextPromise m1 in
      let m2 := mkMachine (once m1) (settled m1) (S p) (S (invocations m1))
                          (suspended m1) (returned m1) in
      let m3 := run f p m2 in
      let m4 := set_once m3 (mkOnce (state (once m3)) (Some p)) in
      return_promise who m4
  | _ => return_promise who m
  end.

(** The closure [async () => { try { return await f() } finally { ... } }]
    running the guarded function [b] up to its next suspension.  [first]
    tells whether this is the synchronous part of the call: there a
    returned value still goes through [await], while a thrown error
    reaches [finally] at once. *)
Fixpoint exec (first : bool) (b : Body) (p : PromiseId) (m : Machine) : Machine :=
  match b with
  | Throw e => finish p (Rejected e) m
  | Return v => if first then suspend p (Return v) m else finish p (Fulfilled v) m
  | Await k => suspend p k m
  | Reenter g k => exec first k p (do_with (exec true) Nested g m)
  end.

(** [once.do(f)] called from outside. *)
Definition do (f : Body) (m : Machine) : Machine := do_with (exec true) Outside f m.

(** The scheduler resumes the closure suspended first. *)
Definition tick (m : Machine) : Machine :=
  match suspended m with
  | [] => m
  | (p, k) :: rest =>
      exec false k p
        (mkMachine (once m) (settled m) (nextPromise m) (invocations m) rest (returned m))
  end.

Inductive Event := CallDo (f : Body) | Tick.

Definition step (m : Machine) (ev : Event) : Machine :=
  match ev with
  | CallDo f => do f m
  | Tick => tick m
  end.

Definition run (evs : list Event) : Machine := foldl step initial evs.

(** What the caller of [do] observes on the promise [do] gave it: that
    promise follows [this.#promise], or is fulfilled with [undefined] when
    [this.#promise] was unset. *)
Definition observe (m : Machine) (r : option PromiseId) : PromiseState :=
  match r with
  | Some p => settled m p
  | None => Settled (Fulfilled VUndefined)
  end.

(** The state of the machine between two events.  Before the first call
    nothing has run; afterwards exactly one guarded function has been
    called, its closure's promise is the memoized one, every outside
    caller was handed that promise, and the closure is either suspended
    with its promise pending (state 1) or finished with its promise
    settled (state 2). *)
Definition quiet (m : Machine) : Prop :=
  match state (once m) with
  | 0 => promise (once m) = None ∧ invocations m = 0 ∧ suspended m = []
         ∧ returned m = [] ∧ ∀ p, settled m p = Pending
  | 1 => ∃ p k, promise (once m) = Some p ∧ invocations m = 1
         ∧ suspended m = [(p, k)] ∧ settled m p = Pending
         ∧ Forall (λ r, r.1 = Outside → r.2 = Some p) (returned m)
  | 2 => ∃ p o, promise (once m) = Some p ∧ invocations m = 1
         ∧ suspended m = [] ∧ settled m p = Settled o
         ∧ Forall (λ r, r.1 = Outside → r.2 = Some p) (returned m)
  | _ => False
  end.

End OnceM.

(** ** Channel: who waits, who is woken, what is in flight *)

Module ChanX.
Import Chan.
Section More.
Context {T : Type}.

(** The promises of the queued senders and receivers, oldest first. *)
Definition sender_ids (ch : Channel T) : list PromiseId := sw_resolve <$> sendWaiters ch.
Definition receiver_ids (ch : Channel T) : list PromiseId := rw_resolve <$> receiveWaiters ch.

(** The promises resolved by a list of wakes, in the order of the calls. *)
Definition woken_senders (wakes : list (Wake T)) : list PromiseId :=
  omap (λ w, match w with WakeSender p => Some p | WakeReceiver _ _ _ => None end) wakes.

Definition woken_receivers (wakes : list (Wake T)) : list PromiseId :=
  omap (λ w, match w with WakeReceiver p _ _ => Some p | WakeSender _ => None end) wakes.

(** The promise a method call leaves queued, if it blocks. *)
Definition queued_sender (ch : Channel T) (op : Op T) : list PromiseId :=
  match op with
  | OpSend value p =>
      match (send ch value p).1.2 with SendPending q => [q] | _ => [] end
  | _ => []
  end.

Definition queued_receiver (ch : Channel T) (op : Op T) : list PromiseId :=
  match op with
  | OpReceive p =>
      match (receive ch p).1.2 with ReceivePending q => [q] | _ => [] end
  | _ => []
  end.

(** The values on their way through the channel, oldest first: the
    buffered ones, then those of the queued senders. *)
Definition in_flight (ch : Channel T) : list (option T) :=
  buffered ch ++ ((λ w, Some (sw_value w)) <$> sendWaiters ch).

End More.
End ChanX.

(** ** Select: the operations a call starts *)

Module SelX.
Import Chan Sel.
Section More.
Context {T : Type}.

(** An entry of the [promises] array still pending when the array is built. *)
Definition racer_pending (r : Racer T) : bool :=
  match r with
  | RacerReceive _ (ReceivePending _) => true
  | RacerSend _ (SendPending _) => true
  | _ => false
  end.

(** The operations [select] starts when it reaches the race: a receive per
    receive case, then a send per send case, each with the next promise. *)
Definition operations_of (first : PromiseId) (cases : list (SelectCase T)) : list (Started T) :=
  imap (λ i c, StartedReceive c.1 (first + i)) (receives_of cases)
  ++ imap (λ i c, StartedSend c.1.1 c.1.2 (first + length (receives_of cases) + i))
          (sends_of cases).

(** Whether [select] returned without reaching the race. *)
Definition returned_early (r : SelectResult T) : bool :=
  match r with
  | SelectThrows NoCasesProvided => true
  | SelectThrows MultipleDefaultCases => true
  | SelectRan (RanDefault _) => true
  | _ => false
  end.

End More.
End SelX.

(** ** Contexts: method sequences and well-formed heaps *)

Module CtxX.
Import Ctx.

(** A call of one of the two state-changing methods of [DefaultContext]. *)
Inductive Method :=
  | CallDone
  | CallCancel (args : CancelArgs).

Definition call_method (c : DefaultContext) (m : Method) : DefaultContext :=
  match m with
  | CallDone => done c
  | CallCancel args => cancel c args
  end.

Definition is_cancel (m : Method) : bool :=
  match m with CallCancel _ => true | CallDone => false end.

(** The three private fields fit together: nothing created yet; a pending
    promise with its resolver captured and no cause; or a resolved promise
    with some resolver installed. *)
Definition coherent (c : DefaultContext) : Prop :=
  (donePromise c = None ∧ resolve c = None ∧ err c = None)
  ∨ (donePromise c = Some Pending ∧ resolve c = Some ResolveDonePromise ∧ err c = None)
  ∨ (donePromise c = Some Resolved ∧ resolve c ≠ None).

(** The context a callback cancels, if any. *)
Definition job_below (n : CtxRef) (j : Job) : Prop :=
  match j with
  | Propagate child _ => child < n
  | ClearTimeout _ => True
  end.

(** A well-formed heap: every object's fields are coherent, callbacks only
    cancel allocated contexts, and armed timers carry identifiers already
    handed out. *)
Record wf (h : Heap) : Prop := mkWf {
  wf_coherent : ∀ r, coherent (fields (obj h r));
  wf_microtasks : Forall (job_below (next h)) (microtasks h);
  wf_reactions : ∀ r, Forall (job_below (next h)) (reactions (obj h r));
  wf_timers : Forall (λ t, t.1 < nextTimer h) (timers h)
}.

(** Running the first [n] callbacks of the microtask queue. *)
Definition run_microtasks (n : nat) (h : Heap) : Heap := Nat.iter n run_microtask h.

(** Whether a timer is armed. *)
Definition armed (h : Heap) (id : TimerId) : Prop := id ∈ (timers h).*1.

End CtxX.

(** ** AfterFuncContext *)

Module AfterFunc.

(** The callback given to [afterFunc], named by an identifier. *)
Definition FnId := nat.

(** The two private fields [AfterFuncContext] adds to [DefaultContext]. *)
Record AfterFuncContext := mkAfterFunc {
  fn : option FnId;
  executed : bool
}.

(** The fields as the constructor leaves them. *)
Definition new_AfterFuncContext (f : FnId) : AfterFuncContext := mkAfterFunc (Some f) false.

(** [#executeFunc()]: the state afterwards and the callback it called, if any. *)
Definition executeFunc (a : AfterFuncContext) : AfterFuncContext * option FnId :=
  match executed a, fn a with
  | false, Some f => (mkAfterFunc None true, Some f)
  | _, _ => (a, None)
  end.

(** [stop()] *)
Definition stop (a : AfterFuncContext) : AfterFuncContext * bool :=
  match executed a, fn a with
  | false, Some _ => (mkAfterFunc None true, true)
  | _, _ => (a, false)
  end.

(** What can happen to the object: the parent's done promise runs
    [#executeFunc], or somebody calls the function [afterFunc] returned. *)
Inductive Event := ParentDone | Stop.

(** What an event produced: the callback ran, or [stop] returned a boolean. *)
Inductive Output := Ran (f : FnId) | NotRun | Stopped (b : bool).

Definition step (a : AfterFuncContext) (ev : Event) : AfterFuncContext * Output :=
  match ev with
  | ParentDone =>
      let '(a', r) := executeFunc a in
      (a', match r with Some f => Ran f | None => NotRun end)
  | Stop => let '(a', b) := stop a in (a', Stopped b)
  end.

Fixpoint run (a : AfterFuncContext) (evs : list Event) : list Output :=
  match evs with
  | [] => []
  | ev :: rest => let '(a', o) := step a ev in o :: run a' rest
  end.

(** What an event produces once the callback is spent. *)
Definition spent (ev : Event) : Output :=
  match ev with ParentDone => NotRun | Stop => Stopped false end.

End AfterFunc.

(** ** Once: the outcome of a guarded function *)

Module OnceX.
Import OnceM.

(** How a guarded function ends, whatever it does on the way. *)
Fixpoint final_outcome (b : Body) : Outcome :=
  match b with
  | Return v => Fulfilled v
  | Throw e => Rejected e
  | Await k => final_outcome k
  | Reenter _ k => final_outcome k
  end.

(** How many times the closure running [b] is suspended before its
    [finally] block runs; [first] as for [exec]. *)
Fixpoint suspensions (first : bool) (b : Body) : nat :=
  match b with
  | Return _ => if first then 1 else 0
  | Throw _ => 0
  | Await k => S (suspensions false k)
  | Reenter _ k => suspensions first k
  end.

Definition is_tick (ev : Event) : bool :=
  match ev with Tick => true | CallDo _ => false end.

(** The machine after [do(f)] was the first call: the closure running [f]
    owns promise 0; it is suspended with fewer than [n] suspensions to go,
    or it has finished and settled promise 0 with the outcome of [f]; no
    other promise is ever settled. *)
Definition tracks (f : Body) (n : nat) (m : Machine) : Prop :=
  match state (once m) with
  | 1 => ∃ k, suspended m = [(0, k)] ∧ final_outcome k = final_outcome f
              ∧ suspensions false k < n ∧ ∀ p, settled m p = Pending
  | 2 => suspended m = [] ∧ settled m 0 = Settled (final_outcome f)
         ∧ ∀ p, p ≠ 0 → settled m p = Pending
  | _ => False
  end.

End OnceX.

(** ** Contexts: the order of creation *)

Module CtxOrder.
Import Ctx.

(** A callback that cancels a context created after [r], or none. *)
Definition job_above (r : CtxRef) (j : Job) : Prop :=
  match j with
  | Propagate child _ => r < child
  | ClearTimeout _ => True
  end.

(** The callbacks waiting on a context's done promise cancel contexts
    created after it: a child registers on its parent when it is built. *)
Definition ordered (h : Heap) : Prop :=
  ∀ r, Forall (job_above r) (reactions (obj h r)).

End CtxOrder.

(** ** scope: deferred cleanup *)

Module Defer.

Definition FnId := nat.
Definition Error := nat.

(** What a deferred function does when it is called: it may register
    further functions with [defer], in order, and it returns or throws. *)
#[warnings="-register-all"]
Inductive Deferred :=
  | mkDeferred (id : FnId) (more : list Deferred) (throws : option Error).

(** What the function given to [scope] does: it registers functions with
    [defer], in order, and returns ([None]) or throws. *)
Record Main := mkMain { registers : list Deferred; outcome : option Error }.

(** A deferred function was called; [console.error] was called. *)
Inductive Event := Ran (id : FnId) | ConsoleError (e : Error).

Definition caught (throws : option Error) : list Event :=
  match throws with Some e => [ConsoleError e] | None => [] end.

(** The [while (task.length > 0)] loop of the [finally] block.  [task] is
    the array, last element on top; [task.pop()] takes the last element,
    and the function called pushes what it registers.  The loop runs at
    most [fuel] iterations; [None] means the fuel ran out. *)
Fixpoint drain (fuel : nat) (task : list Deferred) : option (list Event) :=
  match rev task with
  | [] => Some []
  | mkDeferred id more throws :: below =>
      match fuel with
      | 0 => None
      | S fuel' =>
          match drain fuel' (rev below ++ more) with
          | Some events => Some (Ran id :: caught throws ++ events)
          | None => None
          end
      end
  end.

(** [scope(fn)]: the calls made by the [finally] block and the outcome of
    the returned promise (fulfilled, or rejected with what [fn] threw). *)
Definition scope (fuel : nat) (main : Main) : option (list Event * option Error) :=
  match drain fuel (registers main) with
  | Some events => Some (events, outcome main)
  | None => None
  end.

(** The calls a deferred function gives rise to: its own, the logging of
    its error, then those of the functions it registered, last first. *)
Fixpoint trace (d : Deferred) : list Event :=
  match d with
  | mkDeferred id more throws =>
      Ran id :: caught throws
      ++ (fix later (l : list Deferred) : list Event :=
            match l with
            | [] => []
            | x :: l' => later l' ++ trace x
            end) more
  end.

(** The calls for a whole array of registered functions, last first. *)
Fixpoint traces (task : list Deferred) : list Event :=
  match task with
  | [] => []
  | x :: rest => traces rest ++ trace x
  end.

(** The number of functions registered in all, directly or by others. *)
Fixpoint size (d : Deferred) : nat :=
  match d with
  | mkDeferred _ more _ =>
      S ((fix sizes (l : list Deferred) : nat :=
            match l with
            | [] => 0
            | x :: l' => size x + sizes l'
            end) more)
  end.

Fixpoint sizes (task : list Deferred) : nat :=
  match task with
  | [] => 0
  | x :: rest => size x + sizes rest
  end.

End Defer.

(** ** Cond *)

Module CondM.

(** A waiter callback [() => resolve()], named by the promise it resolves. *)
Definition Waiter := nat.

(** The [#waiters] field; the mutex is not touched by [signal] and
    [broadcast]. *)
Record Cond := mkCond { waiters : list Waiter }.

(** The registration inside [wait()]: [this.#waiters.push(waiter)]. *)
Definition push_waiter (c : Cond) (w : Waiter) : Cond := mkCond (waiters c ++ [w]).

(** [signal()]: the state afterwards and the callbacks handed to
    [setTimeout(waiter, 0)], in order. *)
Definition signal (c : Cond) : Cond * list Waiter :=
  match waiters c with
  | waiter :: rest => (mkCond rest, [waiter])
  | [] => (c, [])
  end.

(** [broadcast()] *)
Definition broadcast (c : Cond) : Cond * list Waiter :=
  match waiters c with
  | [] => (c, [])
  | ws => (mkCond [], ws)
  end.

(** [get waitersCount()] *)
Definition waitersCount (c : Cond) : nat := length (waiters c).

(** [n] calls of [signal] in a row, with everything they scheduled. *)
Fixpoint signals (n : nat) (c : Cond) : Cond * list Waiter :=
  match n with
  | 0 => (c, [])
  | S n' =>
      let '(c1, s1) := signal c in
      let '(c2, s2) := signals n' c1 in
      (c2, s1 ++ s2)
  end.

End CondM.

(** * Properties of channels *)

Section ChannelFacts.
Import Chan.
Context {T : Type}.
Implicit Types (ch : Channel T) (value : T) (p : PromiseId).

(** Index arithmetic of the ring: with [a] in range and [b] at most one
    lap, the remainder is a single conditional subtraction. *)
Lemma ring_index (c a b : nat) :
  a < c → b ≤ c → (a + b) mod c = if decide (a + b < c) then a + b else a + b - c.
Proof.
  intros Ha Hb. case_decide as Hlt.
  - by apply Nat.mod_small.
  - symmetry. apply (Nat.mod_unique _ _ 1); lia.
Qed.

Lemma ring_next (c a b : nat) : ((a + 1) mod c + b) mod c = (a + (b + 1)) mod c.
Proof.
  destruct c as [|c]; [simpl; lia|].
  rewrite Nat.Div0.add_mod_idemp_l. f_equal. lia.
Qed.

Lemma js_get_set_eq (l : list (option T)) i x : i < length l → js_get (js_set l i x) i = x.
Proof.
  intros Hi. unfold js_get, js_set. case_decide; [|lia].
  by rewrite list_lookup_insert_eq.
Qed.

Lemma js_get_set_ne (l : list (option T)) i j x :
  i < length l → i ≠ j → js_get (js_set l i x) j = js_get l j.
Proof.
  intros Hi Hne. unfold js_get, js_set. case_decide; [|lia].
  by rewrite list_lookup_insert_ne.
Qed.

Lemma js_set_length (l : list (option T)) i x : i < length l → length (js_set l i x) = length l.
Proof. intros Hi. unfold js_set. case_decide; [|lia]. apply length_insert. Qed.

Lemma with_sendWaiters_id ch : with_sendWaiters ch (sendWaiters ch) = ch.
Proof. by destruct ch. Qed.

(** The constructor establishes the invariant. *)
Lemma new_Channel_Inv cap ch : new_Channel cap = Some ch → Inv ch.
Proof.
  unfold new_Channel. destruct (Z.ltb_spec cap 0) as [|Hcap]; [done|].
  intros [= <-]. split; [split|..]; simpl; try done; try lia.
  - intros Hz. destruct (Z.ltb_spec 0 cap); [lia|done].
  - intros Hpos. destruct (Z.ltb_spec 0 cap); [|lia].
    eexists. split; [done|]. rewrite length_replicate.
    split; [done|]. split; [done|]. by rewrite Nat.mod_small.
Qed.

(** Writing at [tail] keeps the ring well formed and appends to the
    buffered values. *)
Lemma enqueue_Ring ch value : Ring ch → count ch < capacity ch → Ring (enqueue ch value).
Proof.
  intros [Hc Hn Hs] Hlt. destruct Hs as (l & Hb & Hl & Hh & Ht); [lia|].
  split; simpl; [lia|lia|]. intros _.
  exists (js_set l (tail ch) (Some value)). rewrite Hb. simpl.
  assert (tail ch < length l) as Htl.
  { rewrite Ht, Hl. apply Nat.mod_upper_bound. lia. }
  split; [done|]. split; [by rewrite js_set_length|]. split; [done|].
  rewrite Ht. rewrite Nat.Div0.add_mod_idemp_l. f_equal. lia.
Qed.

Lemma buffered_enqueue ch value :
  Ring ch → count ch < capacity ch →
  buffered (enqueue ch value) = buffered ch ++ [Some value].
Proof.
  intros [Hc Hn Hs] Hlt. destruct Hs as (l & Hb & Hl & Hh & Ht); [lia|].
  unfold buffered. simpl. rewrite Hb. simpl.
  replace (count ch + 1) with (S (count ch)) by lia.
  rewrite seq_S, fmap_app. simpl.
  assert (tail ch < length l) as Htl.
  { rewrite Ht, Hl. apply Nat.mod_upper_bound. lia. }
  f_equal.
  - apply list_fmap_ext. intros i k Hk.
    apply lookup_seq in Hk as [-> Hk]. simpl.
    apply js_get_set_ne; [done|].
    rewrite Ht. rewrite !ring_index by lia. repeat case_decide; lia.
  - f_equal. rewrite <- Ht. by apply js_get_set_eq.
Qed.

(** Clearing the slot at [head] keeps the ring well formed and removes the
    oldest buffered value. *)
Lemma dequeue_Ring ch : Ring ch → 0 < count ch → Ring (dequeue ch).
Proof.
  intros [Hc Hn Hs] Hpos. destruct Hs as (l & Hb & Hl & Hh & Ht); [lia|].
  split; simpl; [lia|lia|]. intros _.
  exists (js_set l (head ch) None). rewrite Hb. simpl.
  split; [done|]. split; [rewrite js_set_length; lia|].
  split; [apply Nat.mod_upper_bound; lia|].
  rewrite ring_next, Ht. f_equal. lia.
Qed.

Lemma buffered_dequeue ch :
  Ring ch → 0 < count ch →
  buffered ch = buf_get (buffer ch) (head ch) :: buffered (dequeue ch).
Proof.
  intros [Hc Hn Hs] Hpos. destruct Hs as (l & Hb & Hl & Hh & Ht); [lia|].
  unfold buffered. simpl. rewrite Hb. simpl.
  destruct (count ch) as [|n] eqn:Hn'; [lia|].
  simpl. rewrite Nat.add_0_r, Nat.mod_small by done. f_equal.
  rewrite Nat.sub_0_r, <- fmap_S_seq, <- list_fmap_compose.
  apply list_fmap_ext. intros i k Hk.
  apply lookup_seq in Hk as [-> Hk]. simpl.
  rewrite ring_next. replace (i + 1) with (S i) by lia.
  symmetry. apply js_get_set_ne; [lia|].
  rewrite ring_index by lia. case_decide; lia.
Qed.

Lemma Ring_with_sendWaiters ch ws : Ring ch → Ring (with_sendWaiters ch ws).
Proof. intros [? ? ?]. by split. Qed.

Lemma Ring_with_receiveWaiters ch ws : Ring ch → Ring (with_receiveWaiters ch ws).
Proof. intros [? ? ?]. by split. Qed.

(** The loop of [#processSendWaiters] moves queued senders into the ring
    while there is room; it touches neither the receivers nor the closed
    flag, and wakes senders only. *)
Lemma processSendWaiters_loop_spec ws ch :
  Ring ch →
  let r := processSendWaiters_loop ws ch in
  Ring r.1 ∧ capacity r.1 = capacity ch ∧ closed r.1 = closed ch
  ∧ receiveWaiters r.1 = receiveWaiters ch ∧ count ch ≤ count r.1
  ∧ (sendWaiters r.1 ≠ [] → count r.1 = capacity r.1)
  ∧ (ws = [] → r = (with_sendWaiters ch [], []))
  ∧ Forall (λ w, ∃ q, w = WakeSender q) r.2.
Proof.
  revert ch. induction ws as [|w rest IH]; intros ch HR; simpl.
  - repeat split; try done; apply HR.
  - case_bool_decide as Hlt.
    + specialize (IH (enqueue ch (sw_value w)) (enqueue_Ring _ _ HR Hlt)).
      destruct (processSendWaiters_loop rest (enqueue ch (sw_value w))) as [ch' wakes].
      simpl in *. destruct IH as (H1 & H2 & H3 & H4 & H5 & H6 & _ & H8).
      repeat split; try done; try apply H1; try lia.
      constructor; [by eexists|done].
    + simpl. repeat split; try done; try apply HR.
      intros _. pose proof (ring_count _ HR). lia.
Qed.

Lemma processSendWaiters_Inv ch :
  Ring ch → receiveWaiters ch = [] → (closed ch = true → sendWaiters ch = []) →
  Inv (processSendWaiters ch).1.
Proof.
  intros HR Hrx Hcl. unfold processSendWaiters.
  destruct (processSendWaiters_loop_spec (sendWaiters ch) ch HR)
    as (H1 & H2 & H3 & H4 & H5 & H6 & H7 & _).
  split; [done|..].
  - intros _. congruence.
  - intros Hc. rewrite H3 in Hc. specialize (Hcl Hc).
    rewrite (H7 Hcl). simpl. split; [done|congruence].
  - intros Hne. split; [auto|congruence].
Qed.

(** The branches of [send] and [trySend]. *)
Lemma send_closed ch value p : closed ch = true → send ch value p = (ch, SendThrows, []).
Proof. intros Hc. unfold send. by rewrite Hc. Qed.

Lemma send_handoff ch value p w rest :
  closed ch = false → receiveWaiters ch = w :: rest →
  send ch value p
  = (with_receiveWaiters ch rest, SendDone, [WakeReceiver (rw_resolve w) (Some value) true]).
Proof. intros Hc Hw. unfold send, handoff. by rewrite Hc, Hw. Qed.

Lemma send_store ch value p :
  closed ch = false → receiveWaiters ch = [] → count ch < capacity ch →
  send ch value p = (enqueue ch value, SendDone, []).
Proof.
  intros Hc Hw Hlt. unfold send, handoff, store. rewrite Hc, Hw.
  rewrite !bool_decide_eq_true_2 by lia. done.
Qed.

Lemma send_wait ch value p :
  closed ch = false → receiveWaiters ch = [] → capacity ch ≤ count ch →
  send ch value p
  = (with_sendWaiters ch (sendWaiters ch ++ [mkSendWaiter value p]), SendPending p, []).
Proof.
  intros Hc Hw Hge. unfold send, handoff, store. rewrite Hc, Hw.
  rewrite (bool_decide_eq_false_2 (count ch < capacity ch)) by lia.
  by rewrite andb_false_r.
Qed.

Lemma trySend_closed ch value : closed ch = true → trySend ch value = (ch, false, []).
Proof. intros Hc. unfold trySend. by rewrite Hc. Qed.

Lemma trySend_handoff ch value w rest :
  closed ch = false → receiveWaiters ch = w :: rest →
  trySend ch value
  = (with_receiveWaiters ch rest, true, [WakeReceiver (rw_resolve w) (Some value) true]).
Proof. intros Hc Hw. unfold trySend, handoff. by rewrite Hc, Hw. Qed.

Lemma trySend_store ch value :
  closed ch = false → receiveWaiters ch = [] → count ch < capacity ch →
  trySend ch value = (enqueue ch value, true, []).
Proof.
  intros Hc Hw Hlt. unfold trySend, handoff, store. rewrite Hc, Hw.
  rewrite !bool_decide_eq_true_2 by lia. done.
Qed.

Lemma trySend_full ch value :
  closed ch = false → receiveWaiters ch = [] → capacity ch ≤ count ch →
  trySend ch value = (ch, false, []).
Proof.
  intros Hc Hw Hge. unfold trySend, handoff, store. rewrite Hc, Hw.
  rewrite (bool_decide_eq_false_2 (count ch < capacity ch)) by lia.
  by rewrite andb_false_r.
Qed.

(** Under the invariant, waiting receivers mean an empty buffer and no
    waiting sender. *)
Lemma Inv_receivers ch w rest :
  Inv ch → receiveWaiters ch = w :: rest → count ch = 0 ∧ sendWaiters ch = [].
Proof.
  intros [HR Hrx Hcl Htx] Hw. split.
  - destruct (count ch) eqn:Hn; [done|]. rewrite Hrx in Hw by lia. done.
  - destruct (sendWaiters ch) eqn:Hs; [done|].
    destruct Htx as [_ Htx]; [done|]. congruence.
Qed.

Lemma Inv_handoff ch w rest :
  Inv ch → closed ch = false → receiveWaiters ch = w :: rest →
  Inv (with_receiveWaiters ch rest).
Proof.
  intros HI Hc Hw. destruct (Inv_receivers _ _ _ HI Hw) as [Hz Hs].
  destruct HI as [HR Hrx Hcl Htx].
  split; simpl; [by apply Ring_with_receiveWaiters|lia|congruence|].
  by rewrite Hs.
Qed.

Lemma Inv_store ch value :
  Inv ch → closed ch = false → receiveWaiters ch = [] → count ch < capacity ch →
  Inv (enqueue ch value).
Proof.
  intros [HR Hrx Hcl Htx] Hc Hw Hlt.
  split; simpl; [by apply enqueue_Ring|done|congruence|].
  intros Hne. apply Htx in Hne. lia.
Qed.

(** Every method preserves the invariant. *)
Lemma send_Inv ch value p : Inv ch → Inv (send ch value p).1.1.
Proof.
  intros HI. destruct (closed ch) eqn:Hc.
  { by rewrite send_closed. }
  destruct (receiveWaiters ch) as [|w rest] eqn:Hw.
  - destruct (decide (count ch < capacity ch)) as [Hlt|Hge].
    + rewrite send_store by done. by apply Inv_store.
    + rewrite send_wait by (done || lia). simpl.
      destruct HI as [HR Hrx Hcl Htx].
      split; simpl; [by apply Ring_with_sendWaiters|done|congruence|].
      intros _. pose proof (ring_count _ HR). split; [lia|done].
  - erewrite send_handoff by done. simpl. by eapply Inv_handoff.
Qed.

Lemma trySend_Inv ch value : Inv ch → Inv (trySend ch value).1.1.
Proof.
  intros HI. destruct (closed ch) eqn:Hc.
  { by rewrite trySend_closed. }
  destruct (receiveWaiters ch) as [|w rest] eqn:Hw.
  - destruct (decide (count ch < capacity ch)) as [Hlt|Hge].
    + rewrite trySend_store by done. by apply Inv_store.
    + by rewrite trySend_full by (done || lia).
  - erewrite trySend_handoff by done. simpl. by eapply Inv_handoff.
Qed.

Lemma take_buffered_Inv ch ch' v wakes :
  Inv ch → take_buffered ch = Some (ch', v, wakes) → Inv ch'.
Proof.
  intros [HR Hrx Hcl Htx]. unfold take_buffered.
  case_bool_decide as Hpos; [|done].
  pose proof (processSendWaiters_Inv (dequeue ch)) as HI.
  destruct (processSendWaiters (dequeue ch)) as [c w]. intros [= <- _ _].
  apply HI; simpl; [by apply dequeue_Ring|auto|].
  intros Hc. by apply Hcl.
Qed.

Lemma rendezvous_Inv ch ch' v wakes :
  Inv ch → take_buffered ch = None → rendezvous ch = Some (ch', v, wakes) → Inv ch'.
Proof.
  intros [HR Hrx Hcl Htx]. unfold take_buffered, rendezvous.
  case_bool_decide as Hpos.
  { by destruct (processSendWaiters (dequeue ch)). }
  intros _. destruct (sendWaiters ch) as [|w rest] eqn:Hs; [done|].
  intros [= <- _ _]. destruct Htx as [Hfull Hnorx]; [done|].
  split; simpl; [by apply Ring_with_sendWaiters|lia|..].
  - intros Hc. apply Hcl in Hc as [? ?]. done.
  - intros _. split; [lia|done].
Qed.

Lemma receive_Inv ch p : Inv ch → Inv (receive ch p).1.1.
Proof.
  intros HI. unfold receive.
  destruct (take_buffered ch) as [[[ch' v] wakes]|] eqn:Ht.
  { simpl. eapply take_buffered_Inv; eauto. }
  destruct (rendezvous ch) as [[[ch' v] wakes]|] eqn:Hr.
  { simpl. eapply rendezvous_Inv; eauto. }
  destruct (closed ch) eqn:Hc; [done|]. simpl.
  unfold take_buffered in Ht. case_bool_decide as Hpos.
  { by destruct (processSendWaiters (dequeue ch)). }
  unfold rendezvous in Hr. destruct (sendWaiters ch) eqn:Hs; [|done].
  destruct HI as [HR Hrx Hcl Htx].
  split; simpl; [by apply Ring_with_receiveWaiters|lia|congruence|].
  by rewrite Hs.
Qed.

Lemma tryReceive_Inv ch : Inv ch → Inv (tryReceive ch).1.1.
Proof.
  intros HI. unfold tryReceive.
  destruct (take_buffered ch) as [[[ch' v] wakes]|] eqn:Ht.
  { simpl. eapply take_buffered_Inv; eauto. }
  destruct (rendezvous ch) as [[[ch' v] wakes]|] eqn:Hr.
  { simpl. eapply rendezvous_Inv; eauto. }
  done.
Qed.

Lemma close_Inv ch : Inv ch → Inv (close ch).1.
Proof.
  intros HI. unfold close. destruct (closed ch) eqn:Hc; simpl; [done|].
  destruct HI as [[? ? ?] Hrx Hcl Htx]. by split; [split|..].
Qed.

Lemma step_Inv ch (op : Op T) : Inv ch → Inv (step ch op).1.
Proof.
  intros HI. destruct op as [v p|p|v| |]; simpl.
  - pose proof (send_Inv ch v p HI). by destruct (send ch v p) as [[? ?] ?].
  - pose proof (receive_Inv ch p HI). by destruct (receive ch p) as [[? ?] ?].
  - pose proof (trySend_Inv ch v HI). by destruct (trySend ch v) as [[? ?] ?].
  - pose proof (tryReceive_Inv ch HI). by destruct (tryReceive ch) as [[? ?] ?].
  - by apply close_Inv.
Qed.

Lemma run_Inv ch (ops : list (Op T)) : Inv ch → Inv (run ch ops).1.
Proof.
  revert ch. induction ops as [|op rest IH]; intros ch HI; [done|].
  simpl. pose proof (step_Inv ch op HI) as H1.
  destruct (step ch op) as [ch1 w1]. specialize (IH ch1 H1).
  by destruct (run ch1 rest) as [ch2 w2].
Qed.

(** The branches of [receive] and [tryReceive]. *)
Lemma processSendWaiters_none ch : sendWaiters ch = [] → processSendWaiters ch = (ch, []).
Proof.
  intros Hs. unfold processSendWaiters. rewrite Hs. simpl.
  by rewrite <- Hs, with_sendWaiters_id.
Qed.

Lemma take_buffered_some ch :
  0 < count ch → sendWaiters ch = [] →
  take_buffered ch = Some (dequeue ch, buf_get (buffer ch) (head ch), []).
Proof.
  intros Hpos Hs. unfold take_buffered. rewrite bool_decide_eq_true_2 by done.
  by rewrite processSendWaiters_none.
Qed.

Lemma take_buffered_none ch : count ch = 0 → take_buffered ch = None.
Proof. intros Hz. unfold take_buffered. by rewrite bool_decide_eq_false_2 by lia. Qed.

Lemma receive_buffered ch p :
  0 < count ch → sendWaiters ch = [] →
  receive ch p = (dequeue ch, Received (buf_get (buffer ch) (head ch)) true, []).
Proof. intros Hpos Hs. unfold receive. by rewrite take_buffered_some. Qed.

Lemma receive_rendezvous ch p w rest :
  count ch = 0 → sendWaiters ch = w :: rest →
  receive ch p
  = (with_sendWaiters ch rest, Received (Some (sw_value w)) true, [WakeSender (sw_resolve w)]).
Proof.
  intros Hz Hs. unfold receive, rendezvous. by rewrite take_buffered_none, Hs.
Qed.

Lemma receive_closed ch p :
  count ch = 0 → sendWaiters ch = [] → closed ch = true →
  receive ch p = (ch, Received None false, []).
Proof.
  intros Hz Hs Hc. unfold receive, rendezvous. by rewrite take_buffered_none, Hs, Hc.
Qed.

Lemma receive_wait ch p :
  count ch = 0 → sendWaiters ch = [] → closed ch = false →
  receive ch p
  = (with_receiveWaiters ch (receiveWaiters ch ++ [mkReceiveWaiter p]), ReceivePending p, []).
Proof.
  intros Hz Hs Hc. unfold receive, rendezvous. by rewrite take_buffered_none, Hs, Hc.
Qed.

Lemma tryReceive_buffered ch :
  0 < count ch → sendWaiters ch = [] →
  tryReceive ch = (dequeue ch, (buf_get (buffer ch) (head ch), true), []).
Proof. intros Hpos Hs. unfold tryReceive. by rewrite take_buffered_some. Qed.

Lemma tryReceive_empty ch :
  count ch = 0 → sendWaiters ch = [] → tryReceive ch = (ch, (None, false), []).
Proof.
  intros Hz Hs. unfold tryReceive, rendezvous. by rewrite take_buffered_none, Hs.
Qed.

(** A closed channel stays closed, and no method called on it wakes anyone. *)
Lemma step_closed ch (op : Op T) :
  Inv ch → closed ch = true → closed (step ch op).1 = true ∧ (step ch op).2 = [].
Proof.
  intros HI Hc. destruct (inv_closed _ HI Hc) as [Hs Hr].
  destruct op as [v p|p|v| |]; simpl.
  - by rewrite send_closed.
  - destruct (decide (0 < count ch)).
    + by rewrite receive_buffered.
    + by rewrite receive_closed by (done || lia).
  - by rewrite trySend_closed.
  - destruct (decide (0 < count ch)).
    + by rewrite tryReceive_buffered.
    + by rewrite tryReceive_empty by (done || lia).
  - unfold close. by rewrite Hc.
Qed.

Lemma run_closed ch (ops : list (Op T)) :
  Inv ch → closed ch = true → closed (run ch ops).1 = true ∧ (run ch ops).2 = [].
Proof.
  revert ch. induction ops as [|op rest IH]; intros ch HI Hc; [done|].
  simpl. pose proof (step_Inv ch op HI) as H1.
  destruct (step_closed ch op HI Hc) as [H2 H3].
  destruct (step ch op) as [ch1 w1]. simpl in *.
  destruct (IH ch1 H1 H2) as [H4 H5].
  destruct (run ch1 rest) as [ch2 w2]. simpl in *. by subst.
Qed.

Lemma buffered_length ch : length (buffered ch) = count ch.
Proof. unfold buffered. by rewrite length_fmap, length_seq. Qed.

(** Receiving from a closed channel: the buffered values in order, then
    the closed signal for ever. *)
Lemma receive_each_closed_empty ch ps :
  count ch = 0 → sendWaiters ch = [] → closed ch = true →
  receive_each ch ps = (ch, (λ _, Received None false) <$> ps).
Proof.
  intros Hz Hs Hc. induction ps as [|p ps IH]; [done|].
  simpl. rewrite receive_closed by done. by rewrite IH.
Qed.

Lemma receive_each_closed ch ps more :
  Inv ch → closed ch = true → length ps = count ch →
  (receive_each ch (ps ++ more)).2
  = ((λ v, Received v true) <$> buffered ch) ++ ((λ _, Received None false) <$> more).
Proof.
  revert ch. induction ps as [|p ps IH]; intros ch HI Hc Hlen.
  - destruct (inv_closed _ HI Hc) as [Hs _]. simpl in *.
    rewrite receive_each_closed_empty by done.
    unfold buffered. by rewrite <- Hlen.
  - destruct (inv_closed _ HI Hc) as [Hs _]. simpl in Hlen.
    pose proof (receive_Inv ch p HI) as HI'.
    rewrite (buffered_dequeue ch) by (apply HI || lia).
    simpl. rewrite receive_buffered in * by (done || lia). simpl in HI'.
    specialize (IH (dequeue ch) HI' Hc).
    destruct (receive_each (dequeue ch) (ps ++ more)) as [ch2 rs]. simpl in *.
    f_equal. apply IH. lia.
Qed.

(** Filling an open channel nobody is receiving on. *)
Lemma trySend_each_fill ch values :
  Inv ch → closed ch = false → receiveWaiters ch = [] →
  count ch + length values ≤ capacity ch →
  let r := trySend_each ch values in
  r.2 = replicate (length values) true
  ∧ Inv r.1 ∧ closed r.1 = false ∧ receiveWaiters r.1 = []
  ∧ sendWaiters r.1 = sendWaiters ch ∧ capacity r.1 = capacity ch
  ∧ count r.1 = count ch + length values
  ∧ buffered r.1 = buffered ch ++ (Some <$> values).
Proof.
  revert ch. induction values as [|v vs IH]; intros ch HI Hc Hr Hlen; simpl in *.
  - rewrite app_nil_r, Nat.add_0_r. done.
  - rewrite trySend_store by (done || lia).
    assert (Inv (enqueue ch v)) as HI' by (apply Inv_store; (done || lia)).
    specialize (IH (enqueue ch v) HI' Hc Hr).
    destruct (trySend_each (enqueue ch v) vs) as [ch2 oks]. simpl in *.
    destruct IH as (H1 & H2 & H3 & H4 & H5 & H6 & H7 & H8); [lia|].
    rewrite H1, H8, buffered_enqueue by (apply HI || lia).
    rewrite <- app_assoc. split_and!; try done. lia.
Qed.

(** Senders queueing on a channel that cannot take their values. *)
Lemma send_each_wait ch (sends : list (T * PromiseId)) :
  closed ch = false → receiveWaiters ch = [] → capacity ch ≤ count ch →
  send_each ch sends
  = (with_sendWaiters ch (sendWaiters ch ++ ((λ s, mkSendWaiter s.1 s.2) <$> sends)),
     (λ s, SendPending s.2) <$> sends, []).
Proof.
  revert ch. induction sends as [|[v p] rest IH]; intros ch Hc Hr Hge; simpl.
  - by rewrite app_nil_r, with_sendWaiters_id.
  - rewrite send_wait by done. rewrite IH by done. simpl.
    by rewrite <- app_assoc.
Qed.

(** [close] calls the resolver of no queued sender, whatever the state. *)
Lemma close_wakes_no_sender ch p : WakeSender p ∉ (close ch).2.
Proof.
  unfold close. destruct (closed ch); simpl; [by apply not_elem_of_nil|].
  intros Hin. apply list_elem_of_fmap in Hin as (w & Hw & _). done.
Qed.

(** The capacity is fixed by the constructor. *)
Lemma processSendWaiters_loop_capacity ws ch :
  capacity (processSendWaiters_loop ws ch).1 = capacity ch.
Proof.
  revert ch. induction ws as [|w rest IH]; intros ch; simpl; [done|].
  case_bool_decide; [|done].
  specialize (IH (enqueue ch (sw_value w))).
  by destruct (processSendWaiters_loop rest (enqueue ch (sw_value w))).
Qed.

Lemma step_capacity ch (op : Op T) : capacity (step ch op).1 = capacity ch.
Proof.
  destruct op as [v p|p|v| |]; simpl.
  - unfold send, handoff, store. by repeat (case_match; simplify_eq/=).
  - unfold receive, take_buffered, rendezvous, processSendWaiters.
    pose proof (processSendWaiters_loop_capacity (sendWaiters (dequeue ch)) (dequeue ch)).
    by repeat (case_match; simplify_eq/=).
  - unfold trySend, handoff, store. by repeat (case_match; simplify_eq/=).
  - unfold tryReceive, take_buffered, rendezvous, processSendWaiters.
    pose proof (processSendWaiters_loop_capacity (sendWaiters (dequeue ch)) (dequeue ch)).
    by repeat (case_match; simplify_eq/=).
  - unfold close. by case_match.
Qed.

Lemma run_capacity ch (ops : list (Op T)) : capacity (run ch ops).1 = capacity ch.
Proof.
  revert ch. induction ops as [|op rest IH]; intros ch; [done|].
  simpl. pose proof (step_capacity ch op) as H1.
  destruct (step ch op) as [ch1 w1]. specialize (IH ch1).
  destruct (run ch1 rest) as [ch2 w2]. simpl in *. congruence.
Qed.

(** C4: after any sequence of [send], [receive], [trySend], [tryReceive]
    and [close] calls on a channel built by the constructor, the buffered
    count lies between 0 and the (unchanged) capacity; buffered values and
    waiting receivers are never both present; and on a closed channel no
    sender is queued, [send] fails and [trySend] returns false, both
    leaving the channel untouched and waking nobody, and the channel stays
    closed. *)
Theorem channel_invariants_hold (cap : Z) (ch0 : Channel T) (ops : list (Op T)) :
  new_Channel cap = Some ch0 →
  let ch := (run ch0 ops).1 in
  capacity ch = Z.to_nat cap
  ∧ 0 ≤ count ch ≤ capacity ch
  ∧ (count ch = 0 ∨ receiveWaiters ch = [])
  ∧ (closed ch = true →
       sendWaiters ch = []
       ∧ (∀ value p, send ch value p = (ch, SendThrows, []))
       ∧ (∀ value, trySend ch value = (ch, false, []))
       ∧ (∀ op, closed (step ch op).1 = true)).
Proof.
  intros Hnew ch.
  assert (Inv ch) as HI by (apply run_Inv; by eapply new_Channel_Inv).
  split_and!.
  - unfold ch. rewrite run_capacity. unfold new_Channel in Hnew.
    destruct (cap <? 0)%Z; [done|]. by injection Hnew as <-.
  - lia.
  - apply HI.
  - destruct (count ch) eqn:Hn; [by left|]. right. apply HI. lia.
  - intros Hc. split_and!.
    + by apply HI.
    + intros. by apply send_closed.
    + intros. by apply trySend_closed.
    + intros op. by apply step_closed.
Qed.

(** C5: [close] resolves every blocked receiver with [ok = false], in
    queue order, and leaves the buffered values in place; the receives
    that follow return those values with [ok = true], oldest first, and
    every receive after the buffer is drained returns [ok = false]. *)
Theorem close_then_drain (ch : Channel T) (ps more : list PromiseId) :
  Inv ch → length ps = count ch →
  (close ch).2 = ((λ w, WakeReceiver (rw_resolve w) None false) <$> receiveWaiters ch)
  ∧ receiveWaiters (close ch).1 = []
  ∧ buffered (close ch).1 = buffered ch
  ∧ (receive_each (close ch).1 (ps ++ more)).2
    = ((λ v, Received v true) <$> buffered ch) ++ ((λ _, Received None false) <$> more).
Proof.
  intros HI Hlen. pose proof (close_Inv ch HI) as HI'.
  assert (closed (close ch).1 = true ∧ count (close ch).1 = count ch
          ∧ buffered (close ch).1 = buffered ch) as (Hc & Hn & Hb).
  { unfold close. by destruct (closed ch) eqn:Hc. }
  split_and!; [| |done|].
  - unfold close. destruct (closed ch) eqn:Hcl; [|done].
    destruct (inv_closed _ HI Hcl) as [_ ->]. done.
  - by apply (inv_closed _ HI').
  - rewrite <- Hb. apply receive_each_closed; [done|done|lia].
Qed.

(** C6: on an open, empty channel of capacity C > 0 with no receiver
    waiting, C consecutive [trySend] calls all return true, one more
    returns false and changes nothing, and a [receive] then completes at
    once with the first value sent and [ok = true]. *)
Theorem trySend_fills_then_receive
    (ch : Channel T) (first : T) (rest : list T) (extra : T) (p : PromiseId) :
  Inv ch → closed ch = false → count ch = 0 → receiveWaiters ch = [] →
  length (first :: rest) = capacity ch →
  let filled := trySend_each ch (first :: rest) in
  filled.2 = replicate (capacity ch) true
  ∧ trySend filled.1 extra = (filled.1, false, [])
  ∧ ∃ ch', receive filled.1 p = (ch', Received (Some first) true, []).
Proof.
  intros HI Hc Hz Hr Hlen filled.
  destruct (trySend_each_fill ch (first :: rest) HI Hc Hr)
    as (H1 & H2 & H3 & H4 & H5 & H6 & H7 & H8); [lia|].
  fold filled in H1, H2, H3, H4, H5, H6, H7, H8.
  assert (sendWaiters ch = []) as Hs.
  { destruct (sendWaiters ch) eqn:Hs; [done|].
    destruct (inv_tx _ HI) as [Hfull _]; [by rewrite Hs|]. simpl in Hlen. lia. }
  split_and!.
  - by rewrite H1, Hlen.
  - apply trySend_full; [done|done|lia].
  - exists (dequeue filled.1). simpl in H7.
    assert (buf_get (buffer filled.1) (head filled.1) = Some first) as Hhd.
    { pose proof (buffered_dequeue filled.1 (inv_ring _ H2)) as Hd.
      rewrite H8 in Hd. unfold buffered at 1 in Hd. rewrite Hz in Hd. simpl in Hd.
      specialize (Hd ltac:(lia)). by injection Hd as <- _. }
    rewrite receive_buffered; [by rewrite Hhd|lia|congruence].
Qed.

(** C7: on an open channel of capacity 0 with nobody waiting, [send] stays
    pending and wakes nobody; further sends queue behind it without
    settling it; the next [receive] returns the first sender's value with
    [ok = true] and resolves that sender's promise, and the value never
    passes through a buffer: the buffer is [null] and the count 0
    throughout. *)
Theorem rendezvous_send_waits_for_receive
    (ch : Channel T) (value : T) (p q : PromiseId) (others : list (T * PromiseId)) :
  Inv ch → capacity ch = 0 → closed ch = false →
  receiveWaiters ch = [] → sendWaiters ch = [] →
  let s1 := send ch value p in
  let s2 := send_each s1.1.1 others in
  let r := receive s2.1.1 q in
  s1.1.2 = SendPending p ∧ s1.2 = []
  ∧ sendWaiters s1.1.1 = [mkSendWaiter value p]
  ∧ s2.1.2 = ((λ s, SendPending s.2) <$> others) ∧ s2.2 = []
  ∧ r.1.2 = Received (Some value) true ∧ r.2 = [WakeSender p]
  ∧ buffer s1.1.1 = None ∧ buffer s2.1.1 = None ∧ buffer r.1.1 = None
  ∧ count s1.1.1 = 0 ∧ count s2.1.1 = 0 ∧ count r.1.1 = 0.
Proof.
  intros HI Hcap Hc Hr Hs s1 s2 r.
  pose proof (ring_count _ (inv_ring _ HI)) as Hcnt.
  pose proof (ring_null _ (inv_ring _ HI) Hcap) as Hbuf.
  assert (count ch = 0) as Hz by lia.
  subst s1 s2 r.
  rewrite (send_wait ch value p) by (done || lia). rewrite Hs. simpl.
  rewrite send_each_wait by (simpl; (done || lia)). simpl.
  erewrite receive_rendezvous by (simpl; done). simpl.
  by split_and!.
Qed.

End ChannelFacts.

(** A concrete proof of the invariant: every field by evaluation. *)
Ltac concrete_Inv :=
  split; [split|..]; simpl;
  try (intros; (done || lia));
  try (intros _; eexists; split_and!; (reflexivity || lia)).

Lemma channel_invariants_hold_witness :
  let ch := (Chan.run (Chan.mkChannel (Some [None; None]) 2 0 0 0 false [] [])
               [Chan.OpTrySend 5; Chan.OpReceive 1; Chan.OpReceive 2; Chan.OpClose]).1 in
  0 ≤ Chan.count ch ≤ Chan.capacity ch.
Proof.
  exact (proj1 (proj2 (channel_invariants_hold (T:=nat) 2 _
    [Chan.OpTrySend 5; Chan.OpReceive 1; Chan.OpReceive 2; Chan.OpClose] eq_refl))).
Defined.

Lemma close_then_drain_witness :
  let ch := Chan.mkChannel (Some [Some 5; Some 6]) 2 0 0 2 false [] [] in
  (Chan.receive_each (Chan.close ch).1 ([1; 2] ++ [3])).2
  = ((λ v, Chan.Received v true) <$> Chan.buffered ch)
    ++ ((λ _, Chan.Received None false) <$> [3]).
Proof.
  refine (proj2 (proj2 (proj2 (close_then_drain (T:=nat)
    (Chan.mkChannel (Some [Some 5; Some 6]) 2 0 0 2 false [] []) [1; 2] [3] _ _)))).
  - concrete_Inv.
  - reflexivity.
Defined.

Lemma trySend_fills_then_receive_witness :
  let ch := Chan.mkChannel (Some [None; None]) 2 0 0 0 false [] [] in
  let filled := Chan.trySend_each ch [5; 6] in
  filled.2 = [true; true]
  ∧ Chan.trySend filled.1 7 = (filled.1, false, [])
  ∧ ∃ ch', Chan.receive filled.1 9 = (ch', Chan.Received (Some 5) true, []).
Proof.
  refine (trySend_fills_then_receive (T:=nat)
    (Chan.mkChannel (Some [None; None]) 2 0 0 0 false [] []) 5 [6] 7 9 _ _ _ _ _);
    [concrete_Inv|reflexivity..].
Defined.

Lemma rendezvous_send_waits_for_receive_witness :
  let ch := Chan.mkChannel (T:=nat) None 0 0 0 0 false [] [] in
  let s1 := Chan.send ch 5 1 in
  let s2 := Chan.send_each s1.1.1 [(6, 2)] in
  let r := Chan.receive s2.1.1 3 in
  s1.1.2 = Chan.SendPending 1 ∧ r.1.2 = Chan.Received (Some 5) true
  ∧ r.2 = [Chan.WakeSender 1].
Proof.
  pose proof (rendezvous_send_waits_for_receive (T:=nat)
    (Chan.mkChannel None 0 0 0 0 false [] []) 5 1 3 [(6, 2)]) as H.
  simpl in H. destruct H as (H1 & _ & _ & _ & _ & H2 & H3 & _);
    [concrete_Inv|reflexivity..|].
  by split_and!.
Defined.

(** C1 (what the code does): a sender queued on a rendezvous channel is
    dropped by [close]: its promise is not settled by the call, the queue
    is emptied, and no later method call on the channel wakes anyone. *)
Theorem close_abandons_queued_sender (ops : list (Chan.Op nat)) :
  let ch0 := Chan.mkChannel (T:=nat) None 0 0 0 0 false [] [] in
  let s := Chan.send ch0 7 1 in
  let c := Chan.close s.1.1 in
  Chan.new_Channel 0 = Some ch0
  ∧ s.1.2 = Chan.SendPending 1 ∧ s.2 = []
  ∧ Chan.sendWaiters s.1.1 = [Chan.mkSendWaiter 7 1]
  ∧ c.2 = [] ∧ Chan.sendWaiters c.1 = []
  ∧ (Chan.run c.1 ops).2 = [].
Proof.
  intros ch0 s c. split_and!; try reflexivity.
  apply run_closed; [|reflexivity].
  apply close_Inv, send_Inv. by apply (new_Channel_Inv 0).
Qed.

(** * Properties of select *)

Section SelectFacts.
Import Chan Sel.
Context {T : Type}.
Implicit Types (w : World T) (cases : list (SelectCase T)) (acc : Classified T).

(** The classification loop splits the case list by kind, keeps the order,
    and fails exactly when it meets a second default case. *)
Lemma classify_no_default cases acc :
  defaults_of cases = [] →
  classify cases acc
  = Some (mkClassified (receiveCases acc ++ receives_of cases)
                       (sendCases acc ++ sends_of cases) (defaultCase acc)).
Proof.
  revert acc. induction cases as [|c rest IH]; intros [rc sc dc] Hd; simpl.
  - by rewrite !app_nil_r.
  - destruct c as [ch a|ch v a|d]; [| |done].
    + rewrite IH by done. simpl. by rewrite <- app_assoc.
    + rewrite IH by done. simpl. by rewrite <- app_assoc.
Qed.

Lemma classify_one_default cases acc d :
  defaultCase acc = None → defaults_of cases = [d] →
  classify cases acc
  = Some (mkClassified (receiveCases acc ++ receives_of cases)
                       (sendCases acc ++ sends_of cases) (Some d)).
Proof.
  revert acc. induction cases as [|c rest IH]; intros [rc sc dc] Hn Hd; [done|].
  simpl in Hn. subst dc. destruct c as [ch a|ch v a|d']; simpl.
  - rewrite IH by done. simpl. by rewrite <- app_assoc.
  - rewrite IH by done. simpl. by rewrite <- app_assoc.
  - injection Hd as -> Hd. by rewrite classify_no_default.
Qed.

Lemma classify_second_default cases acc :
  defaultCase acc ≠ None → defaults_of cases ≠ [] → classify cases acc = None.
Proof.
  revert acc. induction cases as [|c rest IH]; intros [rc sc dc] Hn Hd; [done|].
  simpl in Hn. destruct c as [ch a|ch v a|d']; simpl.
  - by apply IH.
  - by apply IH.
  - by destruct dc.
Qed.

Lemma classify_two_defaults cases acc :
  2 ≤ length (defaults_of cases) → classify cases acc = None.
Proof.
  revert acc. induction cases as [|c rest IH]; intros [rc sc dc] Hd; simpl in *; [lia|].
  destruct c as [ch a|ch v a|d']; simpl.
  - by apply IH.
  - by apply IH.
  - destruct dc; [done|]. apply classify_second_default; [done|].
    unfold defaults_of in *. simpl in Hd. destruct (omap _ rest); simpl in *; [lia|done].
Qed.

Lemma no_receive_ready w cases :
  (∀ c, c ∈ cases → case_ready w c = false) →
  existsb (λ c, hasData (chan w c.1)) (receives_of cases) = false.
Proof.
  induction cases as [|c rest IH]; intros Hall; [done|].
  assert (∀ c', c' ∈ rest → case_ready w c' = false) as Hrest.
  { intros c' Hin. apply Hall. by right. }
  specialize (Hall c ltac:(by left)).
  destruct c as [ch a|ch v a|d]; unfold receives_of; simpl; [|by apply IH..].
  simpl in Hall. rewrite Hall. by apply IH.
Qed.

Lemma no_send_ready w cases :
  (∀ c, c ∈ cases → case_ready w c = false) →
  existsb (λ c, canSend (chan w c.1.1)) (sends_of cases) = false.
Proof.
  induction cases as [|c rest IH]; intros Hall; [done|].
  assert (∀ c', c' ∈ rest → case_ready w c' = false) as Hrest.
  { intros c' Hin. apply Hall. by right. }
  specialize (Hall c ltac:(by left)).
  destruct c as [ch a|ch v a|d]; unfold sends_of; simpl; [by apply IH| |by apply IH].
  simpl in Hall. rewrite Hall. by apply IH.
Qed.

(** X18: when the case list has one default case, [hasData()] is false on
    the channel of every receive case and [canSend()] is false on the
    channel of every send case, [select] runs the default callback and
    nothing else: the channels are untouched, no operation is started and
    nobody is woken.  [canSend()] does not look at the closed flag. *)
Theorem select_runs_default_when_nothing_ready w cases (d : ActionId) :
  defaults_of cases = [d] →
  (∀ c, c ∈ cases → case_ready w c = false) →
  select w cases = (w, SelectRan (RanDefault d)).
Proof.
  intros Hd Hall. unfold select.
  rewrite bool_decide_eq_false_2 by (by destruct cases).
  rewrite (classify_one_default _ _ d) by done. simpl.
  unfold hasReadyOperation. simpl.
  by rewrite no_receive_ready, no_send_ready.
Qed.

(** C10: [select] rejects an empty case list and a case list with more
    than one default case, leaving every channel untouched, starting no
    operation and running no callback. *)
Theorem select_validates_input w cases :
  (cases = [] → select w cases = (w, SelectThrows NoCasesProvided))
  ∧ (2 ≤ length (defaults_of cases) →
     select w cases = (w, SelectThrows MultipleDefaultCases)).
Proof.
  split.
  - by intros ->.
  - intros Hlen. unfold select.
    rewrite bool_decide_eq_false_2 by (by destruct cases; simpl in *; [lia|]).
    by rewrite classify_two_defaults.
Qed.

End SelectFacts.

Lemma select_runs_default_when_nothing_ready_witness :
  let w := Sel.mkWorld (λ _, Chan.mkChannel (T:=nat) None 0 0 0 0 false [] []) 0 [] [] in
  Sel.select w [Sel.ReceiveCase 0 10; Sel.SendCase 1 5 11; Sel.DefaultCase 12]
  = (w, Sel.SelectRan (Sel.RanDefault 12)).
Proof.
  refine (select_runs_default_when_nothing_ready (T:=nat) _
    [Sel.ReceiveCase 0 10; Sel.SendCase 1 5 11; Sel.DefaultCase 12] 12 _ _);
    [reflexivity|].
  intros c Hc. repeat (apply elem_of_cons in Hc as [->|Hc]; [reflexivity|]).
  by apply elem_of_nil in Hc.
Defined.

(** C9 (what the code does): on a closed channel of capacity 1 whose slot
    is free no send can send at once: [trySend] returns false and changes
    nothing, [send] throws.  Yet [canSend()] is true there, so [select]
    with a send case on that channel and a default case does not run the
    default: it starts the send and rejects with the closed-channel
    error. *)
Theorem select_skips_default_on_closed_channel (v : nat) (a d : Sel.ActionId) :
  let ch0 := Chan.mkChannel (T:=nat) (Some [None]) 1 0 0 0 false [] [] in
  let ch := (Chan.close ch0).1 in
  let w := Sel.mkWorld (λ _, ch) 0 [] [] in
  let r := Sel.select w [Sel.SendCase 0 v a; Sel.DefaultCase d] in
  Chan.new_Channel 1 = Some ch0
  ∧ Chan.closed ch = true
  ∧ Chan.trySend ch v = (ch, false, [])
  ∧ Chan.send ch v 0 = (ch, Chan.SendThrows, [])
  ∧ Chan.canSend ch = true
  ∧ r.2 = Sel.SelectThrows Sel.SendOnClosedChannel
  ∧ Sel.started r.1 = [Sel.StartedSend 0 v 0]
  ∧ Sel.chan r.1 0 = ch.
Proof. by split_and!. Qed.

Lemma select_validates_input_witness :
  let w := Sel.mkWorld (λ _, Chan.mkChannel (T:=nat) None 0 0 0 0 false [] []) 0 [] [] in
  Sel.select w [] = (w, Sel.SelectThrows Sel.NoCasesProvided)
  ∧ Sel.select w [Sel.DefaultCase 1; Sel.ReceiveCase 0 2; Sel.DefaultCase 3]
    = (w, Sel.SelectThrows Sel.MultipleDefaultCases).
Proof.
  split.
  - exact (proj1 (select_validates_input (T:=nat) _ []) eq_refl).
  - refine (proj2 (select_validates_input (T:=nat) _
      [Sel.DefaultCase 1; Sel.ReceiveCase 0 2; Sel.DefaultCase 3]) _).
    simpl. lia.
Defined.

(** * Properties of cancellation contexts *)

Section ContextFacts.
Import Ctx.
Implicit Types (c : DefaultContext) (h : Heap) (e : Error).

(** [cancel] on a context that already has an error changes nothing. *)
Lemma cancel_with_error c e args : err c = Some e → cancel c args = c.
Proof. intros He. unfold cancel. by rewrite He. Qed.

(** [cancel] never unsettles the completion signal. *)
Lemma cancel_done c args : is_done c → is_done (cancel c args).
Proof.
  unfold is_done, cancel. intros Hd.
  destruct (err c); [done|]. destruct (resolve c) as [[|]|]; simpl; done.
Qed.

Lemma cancel_undefined_keeps_absent c : err c = None → err (cancel c (Argument None)) = None.
Proof. unfold cancel. intros ->. by destruct (resolve c). Qed.

(** X19: on a Done context, later [cancel] calls keep the context Done;
    when its cause is an error, they change nothing at all, so the cause
    is fixed for good; when it completed cleanly, the cause stays absent
    under calls that pass [undefined]. *)
Theorem cancel_keeps_error_cause c (calls : list CancelArgs) :
  is_done c →
  is_done (cancel_all c calls)
  ∧ (∀ e, err c = Some e → cancel_all c calls = c)
  ∧ (err c = None → Forall (λ a, a = Argument None) calls →
     err (cancel_all c calls) = None).
Proof.
  intros Hd. split_and!.
  - revert c Hd. induction calls as [|a rest IH]; intros c Hd; [done|].
    simpl. apply IH. by apply cancel_done.
  - intros e He. induction calls as [|a rest IH]; [done|].
    simpl. by rewrite (cancel_with_error c e).
  - intros Hn Hall. revert c Hd Hn.
    induction Hall as [|a rest -> _ IH]; intros c Hd Hn; [done|].
    simpl. apply IH; [by apply cancel_done|by apply cancel_undefined_keeps_absent].
Qed.

(** Allocating the child does not disturb an allocated parent. *)
Lemma new_DefaultContext_done_parent h (parent : CtxRef) e :
  parent < next h → h_err h parent = Some e →
  let r := new_DefaultContext h (Some parent) in
  r.2 = next h
  ∧ fields (obj r.1 r.2) = mkContext (Some Resolved) (Some Noop) (Some e)
  ∧ next r.1 = S (next h) ∧ nextTimer r.1 = nextTimer h.
Proof.
  intros Hlt He. unfold new_DefaultContext, h_err in *. simpl.
  rewrite fn_lookup_insert_ne by lia. rewrite He.
  unfold h_cancel. simpl. rewrite fn_lookup_insert. simpl.
  by rewrite fn_lookup_insert.
Qed.

(** C3: when the parent already has an error cause, the child returned by
    the constructor and by every deriving function has that cause, and is
    Done, as soon as the call returns: no microtask has to run. *)
Theorem child_adopts_parent_cause (d : Derive) h (parent : CtxRef) e :
  parent < next h → h_err h parent = Some e →
  let r := derive d h parent in
  h_err r.1 r.2 = Some e ∧ is_done (fields (obj r.1 r.2)).
Proof.
  intros Hlt He.
  pose proof (new_DefaultContext_done_parent h parent e Hlt He) as Hnew.
  cbv zeta in Hnew.
  assert (∀ r, r = new_DefaultContext h (Some parent) →
          h_err r.1 r.2 = Some e ∧ is_done (fields (obj r.1 r.2))) as Hctor.
  { intros r ->. destruct Hnew as (_ & H2 & _). unfold h_err, is_done. by rewrite H2. }
  destruct d; simpl; try (by apply Hctor).
  unfold withTimeout.
  destruct (new_DefaultContext h (Some parent)) as [h1 ctx]. simpl in *.
  destruct Hnew as (_ & H2 & _).
  unfold h_done_then, h_err, is_done. simpl. rewrite H2. simpl.
  by rewrite fn_lookup_insert.
Qed.

End ContextFacts.

Lemma cancel_keeps_error_cause_witness :
  let c := Ctx.cancel Ctx.fresh (Ctx.Argument (Some (Ctx.OtherError 1))) in
  Ctx.cancel_all c [Ctx.NoArgument; Ctx.Argument None; Ctx.Argument (Some (Ctx.OtherError 2))] = c.
Proof.
  refine (proj1 (proj2 (cancel_keeps_error_cause
    (Ctx.cancel Ctx.fresh (Ctx.Argument (Some (Ctx.OtherError 1))))
    [Ctx.NoArgument; Ctx.Argument None; Ctx.Argument (Some (Ctx.OtherError 2))] _))
    (Ctx.OtherError 1) _); reflexivity.
Defined.

(** C2 (what the code does): a context that completed cleanly is Done
    with an absent cause, and a later [cancel] with an error gets past the
    guard commented as idempotent and changes the cause. *)
Lemma clean_completion_cause_changes :
  let c := Ctx.cancel Ctx.fresh (Ctx.Argument None) in
  Ctx.is_done c ∧ Ctx.err c = None
  ∧ Ctx.err (Ctx.cancel_all c [Ctx.Argument (Some (Ctx.OtherError 1))]) ≠ Ctx.err c.
Proof. by split_and!. Qed.

(** The same through the exported functions: a context watching a promise
    completes cleanly when the promise is fulfilled; when its parent is
    cancelled afterwards, the propagation callback of the constructor, the
    call commented "cancel is idempotent", gives it the parent's error. *)
Lemma clean_completion_then_parent_cancel :
  let '(h1, parent) := Ctx.withCancel Ctx.initial 0 in
  let '(h2, child) := Ctx.watchPromise h1 parent in
  let h3 := Ctx.promise_fulfilled h2 child in
  let h4 := Ctx.run_microtask (Ctx.cancelFunc h3 parent) in
  Ctx.is_done (Ctx.fields (Ctx.obj h3 child)) ∧ Ctx.h_err h3 child = None
  ∧ Ctx.h_err h4 child = Some Ctx.ContextCancelledError.
Proof. by vm_compute. Qed.

Lemma child_adopts_parent_cause_witness :
  let '(h1, parent) := Ctx.withCancel Ctx.initial 0 in
  let h2 := Ctx.cancelCauseFunc h1 parent (Some (Ctx.OtherError 7)) in
  let r := Ctx.derive Ctx.ByWithTimeout h2 parent in
  Ctx.h_err r.1 r.2 = Some (Ctx.OtherError 7).
Proof.
  refine (proj1 (child_adopts_parent_cause Ctx.ByWithTimeout
    (Ctx.cancelCauseFunc (Ctx.withCancel Ctx.initial 0).1 1 (Some (Ctx.OtherError 7)))
    1 (Ctx.OtherError 7) _ _)).
  - vm_compute. lia.
  - reflexivity.
Defined.

(** * Properties of Once *)

Section OnceFacts.
Import OnceM.
Implicit Types (m : Machine) (b f : Body) (p : PromiseId).

(** While a guarded function runs (state 1, nothing else suspended), a
    nested [do] only returns [this.#promise]; the closure ends suspended
    or finished, without calling any guarded function. *)
Lemma exec_spec b first p m :
  state (once m) = 1 → suspended m = [] →
  let m' := exec first b p m in
  promise (once m') = promise (once m)
  ∧ invocations m' = invocations m
  ∧ (∃ extra, returned m' = returned m ++ extra
              ∧ Forall (λ r, r = (Nested, promise (once m))) extra)
  ∧ ((state (once m') = 1 ∧ settled m' = settled m ∧ ∃ k, suspended m' = [(p, k)])
     ∨ (state (once m') = 2 ∧ suspended m' = []
        ∧ ∃ o, settled m' = <[p := Settled o]> (settled m))).
Proof.
  revert first m. induction b as [v|e|k IHk|g _ k IHk]; intros first m Hst Hsus; simpl.
  - destruct first; simpl.
    + split_and!; try done.
      * exists []. by rewrite app_nil_r.
      * left. rewrite Hsus. eauto.
    + split_and!; try done.
      * exists []. by rewrite app_nil_r.
      * right. eauto.
  - split_and!; try done.
    + exists []. by rewrite app_nil_r.
    + right. eauto.
  - split_and!; try done.
    + exists []. by rewrite app_nil_r.
    + left. rewrite Hsus. eauto.
  - unfold do_with. rewrite Hst.
    destruct (IHk first (return_promise Nested m) Hst Hsus) as (H1 & H2 & (extra & H3 & H4) & H5).
    split_and!; try done.
    exists ((Nested, promise (once m)) :: extra). split.
    + rewrite H3. simpl. by rewrite <- app_assoc.
    + by constructor.
Qed.

(** Every event keeps the machine quiet. *)
Lemma do_quiet f m : quiet m → quiet (do f m).
Proof.
  unfold quiet, do, do_with. intros Hq.
  destruct (state (once m)) as [|[|[|n]]] eqn:Hst; [| | |done].
  - destruct Hq as (Hp & Hi & Hs & Hr & Hset).
    set (m2 := mkMachine _ _ _ _ _ _).
    destruct (exec_spec f true (nextPromise m) m2 eq_refl Hs)
      as (H1 & H2 & (extra & H3 & H4) & H5).
    simpl in *. rewrite Hi in H2. rewrite Hr in H3. simpl in H3.
    assert (Forall (λ r : Caller * option PromiseId,
              r.1 = Outside → r.2 = Some (nextPromise m))
              (returned (exec true f (nextPromise m) m2) ++
               [(Outside, Some (nextPromise m))])) as Hall.
    { rewrite H3. apply Forall_app. split; [|by constructor].
      eapply List.Forall_impl; [|exact H4]. by intros ? ->. }
    destruct H5 as [(Hs1 & Hset1 & k & Hsus)|(Hs2 & Hsus & o & Hset2)].
    + rewrite Hs1. exists (nextPromise m), k. split_and!; try done.
      rewrite Hset1. apply Hset.
    + rewrite Hs2. exists (nextPromise m), o. split_and!; try done.
      rewrite Hset2. apply fn_lookup_insert.
  - simpl. rewrite Hst. destruct Hq as (p & k & Hp & Hi & Hs & Hset & Hr).
    exists p, k. split_and!; try done.
    apply Forall_app. split; [done|]. by constructor.
  - simpl. rewrite Hst. destruct Hq as (p & o & Hp & Hi & Hs & Hset & Hr).
    exists p, o. split_and!; try done.
    apply Forall_app. split; [done|]. by constructor.
Qed.

Lemma tick_quiet m : quiet m → quiet (tick m).
Proof.
  unfold quiet, tick. intros Hq.
  destruct (state (once m)) as [|[|[|n]]] eqn:Hst; [| | |done].
  - destruct Hq as (Hp & Hi & Hs & Hr & Hset). rewrite Hs, Hst. done.
  - destruct Hq as (p & k & Hp & Hi & Hs & Hset & Hr). rewrite Hs.
    set (m1 := mkMachine _ _ _ _ _ _).
    destruct (exec_spec k false p m1 Hst eq_refl)
      as (H1 & H2 & (extra & H3 & H4) & H5).
    simpl in *.
    assert (Forall (λ r : Caller * option PromiseId, r.1 = Outside → r.2 = Some p)
              (returned (exec false k p m1))) as Hall.
    { rewrite H3. apply Forall_app. split; [done|].
      eapply List.Forall_impl; [|exact H4]. by intros ? ->. }
    destruct H5 as [(Hs1 & Hset1 & k' & Hsus)|(Hs2 & Hsus & o & Hset2)].
    + rewrite Hs1. exists p, k'. split_and!; try congruence.
    + rewrite Hs2. exists p, o. split_and!; try congruence.
      rewrite Hset2. apply fn_lookup_insert.
  - destruct Hq as (p & o & Hp & Hi & Hs & Hset & Hr). rewrite Hs, Hst.
    exists p, o. by split_and!.
Qed.

Lemma step_quiet m ev : quiet m → quiet (step m ev).
Proof. destruct ev; [apply do_quiet|apply tick_quiet]. Qed.

Lemma run_from_quiet m evs : quiet m → quiet (foldl step m evs).
Proof.
  revert m. induction evs as [|ev rest IH]; intros m Hq; [done|].
  simpl. apply IH. by apply step_quiet.
Qed.

Lemma initial_quiet : quiet initial.
Proof. by split_and!. Qed.

(** Once the memoized promise is settled, no event changes the object, the
    promises or the number of calls. *)
Lemma step_after_done m ev :
  quiet m → state (once m) = 2 →
  once (step m ev) = once m ∧ settled (step m ev) = settled m
  ∧ invocations (step m ev) = invocations m.
Proof.
  unfold quiet. intros Hq Hst. rewrite Hst in Hq.
  destruct Hq as (p & o & Hp & Hi & Hs & Hset & Hr).
  destruct ev as [f|]; simpl.
  - unfold do, do_with. by rewrite Hst.
  - unfold tick. by rewrite Hs.
Qed.

Lemma run_after_done m evs :
  quiet m → state (once m) = 2 →
  once (foldl step m evs) = once m ∧ settled (foldl step m evs) = settled m
  ∧ invocations (foldl step m evs) = invocations m.
Proof.
  revert m. induction evs as [|ev rest IH]; intros m Hq Hst; [done|].
  simpl. destruct (step_after_done m ev Hq Hst) as (H1 & H2 & H3).
  destruct (IH (step m ev)) as (H4 & H5 & H6); [by apply step_quiet|congruence|].
  split_and!; congruence.
Qed.

(** The memoized promise, once installed, stays. *)
Lemma step_keeps_promise m ev p :
  quiet m → promise (once m) = Some p → promise (once (step m ev)) = Some p.
Proof.
  unfold quiet. intros Hq Hp.
  destruct (state (once m)) as [|[|[|n]]] eqn:Hst; [| | |done].
  - destruct Hq as (Hn & _). congruence.
  - destruct Hq as (p' & k & Hp' & Hi & Hs & Hset & Hr).
    destruct ev as [f|]; simpl.
    + unfold do, do_with. by rewrite Hst.
    + unfold tick. rewrite Hs.
      set (m1 := mkMachine _ _ _ _ _ _).
      destruct (exec_spec k false p' m1 Hst eq_refl) as (H1 & _).
      simpl in H1. congruence.
  - destruct (step_after_done m ev) as (H1 & _).
    + unfold quiet. by rewrite Hst.
    + done.
    + congruence.
Qed.

Lemma run_keeps_promise m evs p :
  quiet m → promise (once m) = Some p → promise (once (foldl step m evs)) = Some p.
Proof.
  revert m. induction evs as [|ev rest IH]; intros m Hq Hp; [done|].
  simpl. apply IH; [by apply step_quiet|by apply step_keeps_promise].
Qed.

(** What a quiet machine tells about an outside caller. *)
Lemma quiet_outside m r :
  quiet m → (Outside, r) ∈ returned m →
  ∃ p, r = Some p ∧ promise (once m) = Some p ∧ invocations m = 1
       ∧ (∀ o, settled m p = Settled o → state (once m) = 2).
Proof.
  unfold quiet. intros Hq Hin.
  destruct (state (once m)) as [|[|[|n]]] eqn:Hst; [| | |done].
  - destruct Hq as (_ & _ & _ & Hr & _). rewrite Hr in Hin. by apply elem_of_nil in Hin.
  - destruct Hq as (p & k & Hp & Hi & Hs & Hset & Hr).
    rewrite Forall_forall in Hr.
    specialize (Hr _ (proj1 (list_elem_of_In _ _) Hin) eq_refl). simpl in Hr.
    exists p. split_and!; try done. intros o Ho. congruence.
  - destruct Hq as (p & o & Hp & Hi & Hs & Hset & Hr).
    rewrite Forall_forall in Hr.
    specialize (Hr _ (proj1 (list_elem_of_In _ _) Hin) eq_refl). simpl in Hr.
    exists p. by split_and!.
Qed.

Lemma quiet_invocations m : quiet m → invocations m ≤ 1.
Proof.
  unfold quiet. intros Hq.
  destruct (state (once m)) as [|[|[|n]]] eqn:Hst; [| | |done].
  - destruct Hq as (_ & -> & _). lia.
  - destruct Hq as (p & k & _ & -> & _). lia.
  - destruct Hq as (p & o & _ & -> & _). lia.
Qed.

(** X20: over any sequence of [do] calls made from outside the guarded
    function, interleaved with resumptions of the
    suspended closure, a guarded function is called at most once; every
    such caller is handed the one memoized promise, so all of them observe
    the same outcome; and once that promise is settled, later events
    neither change what a caller observes nor call a guarded function
    again, and later outside callers are handed the same promise. *)
Theorem once_outside_callers_agree (evs more : list Event) :
  let m := run evs in
  let m' := run (evs ++ more) in
  invocations m ≤ 1
  ∧ (∀ r, (Outside, r) ∈ returned m → r = promise (once m) ∧ is_Some r)
  ∧ (∀ r1 r2, (Outside, r1) ∈ returned m → (Outside, r2) ∈ returned m →
       r1 = r2 ∧ observe m r1 = observe m r2)
  ∧ (∀ r r', (Outside, r) ∈ returned m → (Outside, r') ∈ returned m' → r' = r)
  ∧ (∀ r o, (Outside, r) ∈ returned m → observe m r = Settled o →
       observe m' r = Settled o ∧ invocations m' = invocations m).
Proof.
  intros m m'.
  assert (quiet m) as Hq by (apply run_from_quiet, initial_quiet).
  assert (quiet m') as Hq' by (apply run_from_quiet, initial_quiet).
  assert (m' = foldl step m more) as Hm' by (unfold m', m, run; apply foldl_app).
  split_and!.
  - by apply quiet_invocations.
  - intros r Hin. destruct (quiet_outside m r Hq Hin) as (p & -> & Hp & _).
    split; [done|by eexists].
  - intros r1 r2 H1 H2.
    destruct (quiet_outside m r1 Hq H1) as (p1 & -> & Hp1 & _).
    destruct (quiet_outside m r2 Hq H2) as (p2 & -> & Hp2 & _).
    assert (p1 = p2) as -> by congruence. done.
  - intros r r' Hin Hin'.
    destruct (quiet_outside m r Hq Hin) as (p & -> & Hp & _).
    destruct (quiet_outside m' r' Hq' Hin') as (p' & -> & Hp' & _).
    rewrite Hm' in Hp'. rewrite (run_keeps_promise m more p Hq Hp) in Hp'. congruence.
  - intros r o Hin Hobs.
    destruct (quiet_outside m r Hq Hin) as (p & -> & Hp & Hi & Hdone).
    simpl in *. specialize (Hdone o Hobs).
    destruct (run_after_done m more Hq Hdone) as (H1 & H2 & H3).
    rewrite Hm'. by rewrite H2, H3.
Qed.

End OnceFacts.

(** Three outside callers, one before the guarded function finished and two
    after: one call, one outcome. *)
Lemma once_outside_callers_agree_witness :
  let evs := [OnceM.CallDo (OnceM.Return (OnceM.VResult 1));
              OnceM.CallDo (OnceM.Return (OnceM.VResult 2));
              OnceM.Tick;
              OnceM.CallDo (OnceM.Throw 3)] in
  OnceM.invocations (OnceM.run evs) ≤ 1
  ∧ OnceM.returned (OnceM.run evs)
    = [(OnceM.Outside, Some 0); (OnceM.Outside, Some 0); (OnceM.Outside, Some 0)]
  ∧ OnceM.observe (OnceM.run evs) (Some 0) = OnceM.Settled (OnceM.Fulfilled (OnceM.VResult 1)).
Proof.
  split; [|by vm_compute].
  exact (proj1 (once_outside_callers_agree
    [OnceM.CallDo (OnceM.Return (OnceM.VResult 1));
     OnceM.CallDo (OnceM.Return (OnceM.VResult 2));
     OnceM.Tick;
     OnceM.CallDo (OnceM.Throw 3)] [])).
Defined.

(** C8 (what the code does): for a caller that arrives while the guarded
    function is still running its synchronous part, [#promise] is not yet
    assigned: a guarded function that calls [do] on the same [Once] gets a
    promise fulfilled with [undefined], whereas the outside caller
    observes the function's result. *)
Lemma reentrant_caller_sees_undefined :
  let f := OnceM.Reenter (OnceM.Return (OnceM.VResult 2)) (OnceM.Return (OnceM.VResult 1)) in
  let m := OnceM.run [OnceM.CallDo f; OnceM.Tick] in
  OnceM.invocations m = 1
  ∧ OnceM.returned m = [(OnceM.Nested, None); (OnceM.Outside, Some 0)]
  ∧ OnceM.observe m None = OnceM.Settled (OnceM.Fulfilled OnceM.VUndefined)
  ∧ OnceM.observe m (Some 0) = OnceM.Settled (OnceM.Fulfilled (OnceM.VResult 1))
  ∧ OnceM.observe m None ≠ OnceM.observe m (Some 0).
Proof. by vm_compute. Qed.

(** Once the closure has passed its first [await], [#promise] is assigned,
    and a call of [do] made by the guarded function is handed the memoized
    promise like any outside caller. *)
Lemma reentrant_caller_after_await_is_handed_the_promise :
  let f := OnceM.Await (OnceM.Reenter (OnceM.Return (OnceM.VResult 2))
                                      (OnceM.Return (OnceM.VResult 1))) in
  let m := OnceM.run [OnceM.CallDo f; OnceM.Tick] in
  OnceM.invocations m = 1
  ∧ OnceM.returned m = [(OnceM.Outside, Some 0); (OnceM.Nested, Some 0)]
  ∧ OnceM.observe m (Some 0) = OnceM.Settled (OnceM.Fulfilled (OnceM.VResult 1)).
Proof. by vm_compute. Qed.

(** * Runs of the model on concrete inputs *)

(** A channel of capacity 2: the ring wraps around and keeps FIFO order. *)
Example ring_wraps_in_order :
  let ch0 := Chan.mkChannel (T:=nat) (Some [None; None]) 2 0 0 0 false [] [] in
  let '(ch1, _, _) := Chan.trySend ch0 1 in
  let '(ch2, _, _) := Chan.trySend ch1 2 in
  let '(ch3, r1, _) := Chan.receive ch2 10 in
  let '(ch4, _, _) := Chan.trySend ch3 3 in
  let '(ch5, r2, _) := Chan.receive ch4 11 in
  let '(ch6, r3, _) := Chan.receive ch5 12 in
  let '(_, r4, _) := Chan.receive ch6 13 in
  [r1; r2; r3; r4]
  = [Chan.Received (Some 1) true; Chan.Received (Some 2) true;
     Chan.Received (Some 3) true; Chan.ReceivePending 13].
Proof. reflexivity. Qed.

(** A full channel of capacity 1: queued senders move into the buffer in
    arrival order as receives free the slot. *)
Example queued_senders_in_order :
  let ch0 := Chan.mkChannel (T:=nat) (Some [None]) 1 0 0 0 false [] [] in
  let '(ch1, s1, _) := Chan.send ch0 1 20 in
  let '(ch2, s2, _) := Chan.send ch1 2 21 in
  let '(ch3, s3, _) := Chan.send ch2 3 22 in
  let '(ch4, r1, w1) := Chan.receive ch3 10 in
  let '(ch5, r2, w2) := Chan.receive ch4 11 in
  let '(_, r3, w3) := Chan.receive ch5 12 in
  [s1; s2; s3] = [Chan.SendDone; Chan.SendPending 21; Chan.SendPending 22]
  ∧ [r1; r2; r3]
    = [Chan.Received (Some 1) true; Chan.Received (Some 2) true; Chan.Received (Some 3) true]
  ∧ [w1; w2; w3] = [[Chan.WakeSender 21]; [Chan.WakeSender 22]; []].
Proof. by split_and!. Qed.

(** A receiver blocked on a rendezvous channel is handed the value. *)
Example blocked_receiver_is_handed_the_value :
  let ch0 := Chan.mkChannel (T:=nat) None 0 0 0 0 false [] [] in
  let '(ch1, r, _) := Chan.receive ch0 10 in
  let '(ch2, s, w) := Chan.send ch1 5 20 in
  r = Chan.ReceivePending 10 ∧ s = Chan.SendDone
  ∧ w = [Chan.WakeReceiver 10 (Some 5) true] ∧ Chan.count ch2 = 0.
Proof. by split_and!. Qed.

(** [select] without a default case starts every operation; the first one
    already settled wins. *)
Example select_takes_the_ready_receive :
  let full := Chan.mkChannel (T:=nat) (Some [Some 4]) 1 0 0 1 false [] [] in
  let empty := Chan.mkChannel (T:=nat) None 0 0 0 0 false [] [] in
  let w := Sel.mkWorld (λ c, if decide (c = 1) then full else empty) 0 [] [] in
  let r := Sel.select w [Sel.ReceiveCase 0 10; Sel.ReceiveCase 1 11] in
  r.2 = Sel.SelectRan (Sel.RanReceive 11 (Some 4) true)
  ∧ Sel.started r.1 = [Sel.StartedReceive 0 0; Sel.StartedReceive 1 1].
Proof. by split_and!. Qed.

(** With a default case and a ready operation, the default is not taken. *)
Example select_default_not_taken_when_ready :
  let full := Chan.mkChannel (T:=nat) (Some [Some 4]) 1 0 0 1 false [] [] in
  let w := Sel.mkWorld (λ _, full) 0 [] [] in
  (Sel.select w [Sel.DefaultCase 9; Sel.ReceiveCase 0 10]).2
  = Sel.SelectRan (Sel.RanReceive 10 (Some 4) true).
Proof. reflexivity. Qed.

(** A parent cancelled after the child was derived reaches the child with
    the next microtask, not before. *)
Example later_cancellation_reaches_child_by_microtask :
  let '(h1, parent) := Ctx.withCancel Ctx.initial 0 in
  let '(h2, child) := Ctx.withCancel h1 parent in
  let h3 := Ctx.cancelFunc h2 parent in
  Ctx.h_err h3 child = None
  ∧ Ctx.h_err (Ctx.run_microtask h3) child = Some Ctx.ContextCancelledError.
Proof. by vm_compute. Qed.

(** A timer armed by [withTimeout] cancels the context with a timeout
    error; after an earlier cancellation it changes nothing. *)
Example timeout_after_cancel_changes_nothing :
  let '(h1, ctx) := Ctx.withTimeout Ctx.initial 0 in
  let h2 := Ctx.cancelCauseFunc h1 ctx (Some (Ctx.OtherError 3)) in
  Ctx.h_err (Ctx.fire_timer h1 0) ctx = Some Ctx.ContextTimeoutError
  ∧ Ctx.h_err (Ctx.fire_timer h2 0) ctx = Some (Ctx.OtherError 3).
Proof. by vm_compute. Qed.

(** A guarded function that throws at once: the error is memoized. *)
Example once_memoizes_a_thrown_error :
  let m := OnceM.run [OnceM.CallDo (OnceM.Throw 5); OnceM.CallDo (OnceM.Return (OnceM.VResult 1))] in
  OnceM.invocations m = 1 ∧ OnceM.state (OnceM.once m) = 2
  ∧ OnceM.returned m = [(OnceM.Outside, Some 0); (OnceM.Outside, Some 0)]
  ∧ OnceM.observe m (Some 0) = OnceM.Settled (OnceM.Rejected 5).
Proof. by vm_compute. Qed.

(** * Further properties of channels *)

Section ChannelMore.
Import Chan ChanX.
Context {T : Type}.
Implicit Types (ch : Channel T) (value : T) (p : PromiseId) (op : Op T).

(** What the loop of [#processSendWaiters] does to the queues: receivers
    are untouched, and the senders it wakes are a prefix of the queue. *)
Lemma processSendWaiters_loop_queues ws ch :
  let r := processSendWaiters_loop ws ch in
  receiveWaiters r.1 = receiveWaiters ch
  ∧ woken_receivers r.2 = []
  ∧ sw_resolve <$> ws = woken_senders r.2 ++ sender_ids r.1.
Proof.
  revert ch. induction ws as [|w rest IH]; intros ch; simpl; [done|].
  case_bool_decide; [|done].
  specialize (IH (enqueue ch (sw_value w))).
  destruct (processSendWaiters_loop rest (enqueue ch (sw_value w))) as [ch' wakes].
  simpl in *. destruct IH as (H1 & H2 & H3). split_and!; [done|done|].
  simpl. f_equal. exact H3.
Qed.

(** X1: receivers are woken in arrival order and none is ever lost. *)
Theorem receivers_are_conserved ch op :
  receiver_ids ch ++ queued_receiver ch op
  = woken_receivers (step ch op).2 ++ receiver_ids (step ch op).1.
Proof.
  unfold receiver_ids.
  destruct op as [v p|p|v| |]; simpl.
  - rewrite app_nil_r. unfold send, handoff, store.
    by repeat (case_match; simplify_eq/=).
  - pose proof (processSendWaiters_loop_queues (sendWaiters (dequeue ch)) (dequeue ch))
      as (H1 & H2 & _).
    unfold receive, take_buffered, rendezvous, processSendWaiters in *.
    repeat (case_match; simplify_eq/=); rewrite ?app_nil_r, ?fmap_app; try done.
    by rewrite H2, H1.
  - rewrite app_nil_r. unfold trySend, handoff, store.
    by repeat (case_match; simplify_eq/=).
  - pose proof (processSendWaiters_loop_queues (sendWaiters (dequeue ch)) (dequeue ch))
      as (H1 & H2 & _).
    rewrite app_nil_r.
    unfold tryReceive, take_buffered, rendezvous, processSendWaiters in *.
    repeat (case_match; simplify_eq/=); try done.
    by rewrite H2, H1.
  - rewrite app_nil_r. unfold close. case_match; simpl; [done|].
    rewrite app_nil_r. unfold woken_receivers.
    induction (receiveWaiters ch) as [|w rest IH]; [done|]. simpl. f_equal. exact IH.
Qed.

(** X2: apart from [close], senders are woken in arrival order and none
    is lost. *)
Theorem senders_are_conserved ch op :
  op ≠ OpClose →
  sender_ids ch ++ queued_sender ch op
  = woken_senders (step ch op).2 ++ sender_ids (step ch op).1.
Proof.
  intros Hop. unfold sender_ids.
  destruct op as [v p|p|v| |]; simpl; [| | | |done].
  - unfold send, handoff, store.
    repeat (case_match; simplify_eq/=); rewrite ?app_nil_r, ?fmap_app; done.
  - pose proof (processSendWaiters_loop_queues (sendWaiters (dequeue ch)) (dequeue ch))
      as (_ & _ & H3).
    rewrite app_nil_r.
    unfold receive, take_buffered, rendezvous, processSendWaiters in *.
    repeat (case_match; simplify_eq/=); try done.
  - rewrite app_nil_r. unfold trySend, handoff, store.
    by repeat (case_match; simplify_eq/=).
  - pose proof (processSendWaiters_loop_queues (sendWaiters (dequeue ch)) (dequeue ch))
      as (_ & _ & H3).
    rewrite app_nil_r.
    unfold tryReceive, take_buffered, rendezvous, processSendWaiters in *.
    repeat (case_match; simplify_eq/=); try done.
Qed.

(** The loop of [#processSendWaiters] only moves values from the sender
    queue to the buffer: what is in flight stays the same, in order. *)
Lemma processSendWaiters_loop_in_flight ws ch :
  Ring ch →
  in_flight (processSendWaiters_loop ws ch).1
  = buffered ch ++ ((λ w, Some (sw_value w)) <$> ws).
Proof.
  revert ch. induction ws as [|w rest IH]; intros ch HR; simpl.
  - reflexivity.
  - case_bool_decide as Hlt; [|reflexivity].
    specialize (IH (enqueue ch (sw_value w)) (enqueue_Ring _ _ HR Hlt)).
    destruct (processSendWaiters_loop rest (enqueue ch (sw_value w))) as [ch' wakes].
    simpl in *. rewrite IH, buffered_enqueue by done. by rewrite <- app_assoc.
Qed.

(** A send on an open channel nobody is receiving on puts its value last
    in flight, whether it is buffered or queued. *)
Lemma send_in_flight ch value p :
  Inv ch → closed ch = false → receiveWaiters ch = [] →
  let ch' := (send ch value p).1.1 in
  in_flight ch' = in_flight ch ++ [Some value]
  ∧ closed ch' = false ∧ receiveWaiters ch' = [].
Proof.
  intros HI Hc Hr. destruct (decide (count ch < capacity ch)) as [Hlt|Hge].
  - rewrite send_store by done. simpl. split_and!; [|done..].
    unfold in_flight. rewrite buffered_enqueue by (apply HI || done). simpl.
    assert (sendWaiters ch = []) as ->.
    { destruct (sendWaiters ch) eqn:Hs; [done|].
      destruct (inv_tx _ HI) as [? _]; [by rewrite Hs|lia]. }
    by rewrite !app_nil_r.
  - rewrite send_wait by (done || lia). simpl. split_and!; [|done..].
    unfold in_flight. simpl. by rewrite fmap_app, app_assoc.
Qed.

(** A receive takes the oldest value in flight. *)
Lemma receive_in_flight ch p v rest :
  Inv ch → in_flight ch = v :: rest →
  let r := receive ch p in
  r.1.2 = Received v true ∧ in_flight r.1.1 = rest
  ∧ closed r.1.1 = closed ch ∧ receiveWaiters r.1.1 = [].
Proof.
  intros HI Hfl. destruct (decide (0 < count ch)) as [Hpos|Hz].
  - pose proof (buffered_dequeue ch (inv_ring _ HI) Hpos) as Hb.
    pose proof (processSendWaiters_loop_in_flight (sendWaiters ch) (dequeue ch)
                  (dequeue_Ring _ (inv_ring _ HI) Hpos)) as Hl.
    pose proof (processSendWaiters_loop_spec (sendWaiters ch) (dequeue ch)
                  (dequeue_Ring _ (inv_ring _ HI) Hpos)) as (_ & _ & Hcl & Hrx & _).
    unfold in_flight in Hfl. rewrite Hb in Hfl. simpl in Hfl.
    injection Hfl as Hv Hrest.
    unfold receive, take_buffered, processSendWaiters.
    rewrite bool_decide_eq_true_2 by done. simpl.
    destruct (processSendWaiters_loop (sendWaiters ch) (dequeue ch)) as [ch' wakes].
    simpl in *. split_and!; [by rewrite Hv|congruence|done|].
    rewrite Hrx. by apply (inv_rx _ HI).
  - assert (count ch = 0) as Hc0 by lia.
    unfold in_flight, buffered in Hfl. rewrite Hc0 in Hfl. simpl in Hfl.
    destruct (sendWaiters ch) as [|w ws] eqn:Hs; [done|].
    injection Hfl as Hv Hrest.
    rewrite (receive_rendezvous ch p w ws) by done. simpl.
    split_and!; [by rewrite Hv| |done|].
    + unfold in_flight, buffered. simpl. by rewrite Hc0.
    + by destruct (inv_tx _ HI) as [_ ?]; [rewrite Hs|].
Qed.

Lemma send_each_in_flight ch (sends : list (T * PromiseId)) :
  Inv ch → closed ch = false → receiveWaiters ch = [] →
  let ch' := (send_each ch sends).1.1 in
  Inv ch' ∧ in_flight ch' = in_flight ch ++ ((λ s, Some s.1) <$> sends).
Proof.
  revert ch. induction sends as [|[v p] rest IH]; intros ch HI Hc Hr; simpl.
  - by rewrite app_nil_r.
  - pose proof (send_Inv ch v p HI) as HI'.
    destruct (send_in_flight ch v p HI Hc Hr) as (H1 & H2 & H3).
    destruct (send ch v p) as [[ch1 r1] w1]. simpl in *.
    specialize (IH ch1 HI' H2 H3).
    destruct (send_each ch1 rest) as [[ch2 rs] w2]. simpl in *.
    destruct IH as [IH1 IH2]. split; [done|].
    rewrite IH2, H1. by rewrite <- app_assoc.
Qed.

Lemma receive_each_in_flight ch ps :
  Inv ch → length ps ≤ length (in_flight ch) →
  (receive_each ch ps).2 = (λ v, Received v true) <$> take (length ps) (in_flight ch).
Proof.
  revert ch. induction ps as [|p ps IH]; intros ch HI Hlen; [done|].
  simpl in *. destruct (in_flight ch) as [|v rest] eqn:Hfl; simpl in *; [lia|].
  pose proof (receive_Inv ch p HI) as HI'.
  destruct (receive_in_flight ch p v rest HI Hfl) as (H1 & H2 & _).
  destruct (receive ch p) as [[ch1 r1] w1]. simpl in *.
  specialize (IH ch1 HI'). rewrite H2 in IH.
  destruct (receive_each ch1 ps) as [ch2 rs]. simpl in *.
  rewrite H1. f_equal. apply IH. lia.
Qed.

(** X3: a channel is a FIFO queue.  On an open channel nobody is receiving
    on, after any number of sends (buffered while there is room, queued
    afterwards), the receives return with [ok = true] first the values
    that were already in flight and then the values sent, each in the
    order it entered. *)
Theorem values_are_received_in_send_order
    ch (sends : list (T * PromiseId)) (ps : list PromiseId) :
  Inv ch → closed ch = false → receiveWaiters ch = [] →
  length ps = length (in_flight ch) + length sends →
  (receive_each (send_each ch sends).1.1 ps).2
  = (λ v, Received v true) <$> (in_flight ch ++ ((λ s, Some s.1) <$> sends)).
Proof.
  intros HI Hc Hr Hlen.
  destruct (send_each_in_flight ch sends HI Hc Hr) as [HI' Hfl].
  rewrite receive_each_in_flight by (done || rewrite Hfl, length_app, length_fmap; lia).
  rewrite Hfl. rewrite firstn_all2; [done|].
  rewrite length_app, length_fmap. lia.
Qed.

(** X4: [tryReceive] returns a value exactly when [hasData()] is true, and
    then it does what [receive] does (same value, same state, same wakes);
    otherwise it leaves the channel alone, where [receive] reports closure
    or blocks. *)
Theorem tryReceive_is_receive_when_hasData ch p :
  (tryReceive ch).1.2.2 = hasData ch
  ∧ (if hasData ch
     then receive ch p
          = ((tryReceive ch).1.1, Received (tryReceive ch).1.2.1 true, (tryReceive ch).2)
     else tryReceive ch = (ch, (None, false), [])
          ∧ receive ch p
            = if closed ch then (ch, Received None false, [])
              else (with_receiveWaiters ch (receiveWaiters ch ++ [mkReceiveWaiter p]),
                    ReceivePending p, [])).
Proof.
  unfold hasData, tryReceive, receive, take_buffered, rendezvous.
  destruct (processSendWaiters (dequeue ch)) as [ch' wakes].
  case_bool_decide as Hc; simpl; [done|].
  destruct (sendWaiters ch) as [|w ws]; simpl; [|done].
  split; [done|]. split; [done|]. by destruct (closed ch).
Qed.

(** X5: [trySend] returns true exactly when the channel is open and
    [canSend()] is true, and then it does what [send] does; otherwise it
    leaves the channel alone, where [send] throws (closed) or blocks.
    [canSend()] itself does not look at the closed flag. *)
Theorem trySend_is_send_when_canSend ch value p :
  (trySend ch value).1.2 = negb (closed ch) && canSend ch
  ∧ (if (trySend ch value).1.2
     then send ch value p = ((trySend ch value).1.1, SendDone, (trySend ch value).2)
     else trySend ch value = (ch, false, [])
          ∧ send ch value p
            = if closed ch then (ch, SendThrows, [])
              else (with_sendWaiters ch (sendWaiters ch ++ [mkSendWaiter value p]),
                    SendPending p, [])).
Proof.
  unfold canSend, trySend, send, handoff, store.
  destruct (closed ch); simpl; [done|].
  destruct (receiveWaiters ch) as [|w ws]; simpl; [|done].
  by destruct (bool_decide (0 < capacity ch) && bool_decide (count ch < capacity ch)).
Qed.

End ChannelMore.

(** * Further properties of select *)

Section SelectMore.
Import Chan Sel SelX.
Context {T : Type}.
Implicit Types (w : World T) (cases : list (SelectCase T)) (acc : Classified T).

(** A receive that blocks found no data and only joined the receiver
    queue; a send that blocks could not send and only joined the sender
    queue. *)
Lemma receive_pending_inv (ch ch' : Channel T) p q wakes :
  receive ch p = (ch', ReceivePending q, wakes) →
  hasData ch = false
  ∧ ch' = with_receiveWaiters ch (receiveWaiters ch ++ [mkReceiveWaiter p]).
Proof.
  unfold hasData, receive, take_buffered, rendezvous.
  destruct (processSendWaiters (dequeue ch)) as [c wk].
  case_bool_decide; simpl; [done|].
  destruct (sendWaiters ch); simpl; [|done].
  destruct (closed ch); [done|]. by intros [= <- _ _].
Qed.

Lemma send_pending_inv (ch ch' : Channel T) v p q wakes :
  send ch v p = (ch', SendPending q, wakes) →
  canSend ch = false
  ∧ ch' = with_sendWaiters ch (sendWaiters ch ++ [mkSendWaiter v p]).
Proof.
  unfold canSend, send, handoff, store.
  destruct (closed ch); [done|].
  destruct (receiveWaiters ch); simpl; [|done].
  destruct (bool_decide (0 < capacity ch) && bool_decide (count ch < capacity ch));
    [done|]. by intros [= <- _ _].
Qed.

Lemma race_waiting (rs : list (Racer T)) :
  race rs = SelectWaiting → forallb racer_pending rs = true.
Proof.
  induction rs as [|[a [v ok|q]|a [| |q]] rest IH]; simpl; try done.
Qed.

Lemma race_not_early (rs : list (Racer T)) : returned_early (race rs) = false.
Proof.
  induction rs as [|[a [v ok|q]|a [| |q]] rest IH]; simpl; try done.
Qed.

(** The classification loop, when it succeeds, collects the receive and
    send cases in order. *)
Lemma classify_some cases acc cl :
  classify cases acc = Some cl →
  receiveCases cl = receiveCases acc ++ receives_of cases
  ∧ sendCases cl = sendCases acc ++ sends_of cases.
Proof.
  revert acc. induction cases as [|c rest IH]; intros [rc sc dc]; simpl.
  - intros [= <-]. simpl. by rewrite !app_nil_r.
  - destruct c as [ch a|ch v a|d]; simpl.
    + intros H. apply IH in H as [-> ->]. simpl. by rewrite <- app_assoc.
    + intros H. apply IH in H as [-> ->]. simpl. by rewrite <- app_assoc.
    + destruct dc; [done|]. intros H. by apply IH in H as [-> ->].
Qed.

(** If every receive started is still pending, no receive case had data,
    no channel gained data, and no channel lost the ability to send. *)
Lemma start_receives_pending w (cs : list (ChanRef * ActionId)) :
  forallb racer_pending (start_receives w cs).2 = true →
  (∀ c, hasData (chan (start_receives w cs).1 c) = hasData (chan w c))
  ∧ (∀ c, canSend (chan w c) = true → canSend (chan (start_receives w cs).1 c) = true)
  ∧ Forall (λ c, hasData (chan w c.1) = false) cs.
Proof.
  revert w. induction cs as [|[c a] rest IH]; intros w; simpl; [done|].
  destruct (receive (chan w c) (nextPromise w)) as [[ch' r] wakes] eqn:Hrecv.
  set (w1 := mkWorld _ _ _ _). specialize (IH w1).
  destruct (start_receives w1 rest) as [w2 rs]. simpl in *.
  destruct r as [v ok|q]; [done|]. intros Hall.
  destruct (receive_pending_inv _ _ _ _ _ Hrecv) as [Hno ->].
  destruct (IH Hall) as (H1 & H2 & H3).
  assert (∀ c', hasData (chan w1 c') = hasData (chan w c')) as Hd.
  { intros c'. unfold w1. simpl. destruct (decide (c = c')) as [->|Hne].
    - by rewrite fn_lookup_insert.
    - by rewrite fn_lookup_insert_ne. }
  assert (∀ c', canSend (chan w c') = true → canSend (chan w1 c') = true) as Hs.
  { intros c'. unfold w1. simpl. destruct (decide (c = c')) as [->|Hne].
    - rewrite fn_lookup_insert. intros _. unfold canSend. simpl.
      rewrite length_app. simpl. rewrite bool_decide_eq_true_2 by lia. done.
    - by rewrite fn_lookup_insert_ne. }
  split_and!.
  - intros c'. rewrite H1. apply Hd.
  - intros c' Hc'. apply H2. by apply Hs.
  - constructor; [done|]. eapply List.Forall_impl; [|exact H3].
    intros [c' a']. simpl. intros <-. symmetry. apply Hd.
Qed.

(** If every send started is still pending, no send case could send. *)
Lemma start_sends_pending w (cs : list (ChanRef * T * ActionId)) :
  forallb racer_pending (start_sends w cs).2 = true →
  Forall (λ c, canSend (chan w c.1.1) = false) cs.
Proof.
  revert w. induction cs as [|[[c v] a] rest IH]; intros w; simpl; [done|].
  destruct (send (chan w c) v (nextPromise w)) as [[ch' r] wakes] eqn:Hsend.
  set (w1 := mkWorld _ _ _ _). specialize (IH w1).
  destruct (start_sends w1 rest) as [w2 rs]. simpl in *.
  destruct r as [| |q]; [done|done|]. intros Hall.
  destruct (send_pending_inv _ _ _ _ _ _ Hsend) as [Hno ->].
  assert (∀ c', canSend (chan w1 c') = canSend (chan w c')) as Hs.
  { intros c'. unfold w1. simpl. destruct (decide (c = c')) as [->|Hne].
    - by rewrite fn_lookup_insert.
    - by rewrite fn_lookup_insert_ne. }
  constructor; [done|]. eapply List.Forall_impl; [|exact (IH Hall)].
  intros [[c' v'] a']. simpl. intros <-. symmetry. apply Hs.
Qed.

Lemma ready_case_found w cases (c : SelectCase T) :
  c ∈ cases → case_ready w c = true →
  Exists (λ rc, hasData (chan w rc.1) = true) (receives_of cases)
  ∨ Exists (λ sc, canSend (chan w sc.1.1) = true) (sends_of cases).
Proof.
  induction cases as [|c' rest IH]; intros Hin Hready.
  { by apply elem_of_nil in Hin. }
  apply elem_of_cons in Hin as [<-|Hin].
  - destruct c as [ch a|ch v a|d]; simpl in Hready; [| |done].
    + left. unfold receives_of. simpl. by constructor.
    + right. unfold sends_of. simpl. by constructor.
  - destruct (IH Hin Hready) as [H|H].
    + left. unfold receives_of in *. destruct c'; simpl; try done. by constructor 2.
    + right. unfold sends_of in *. destruct c'; simpl; try done. by constructor 2.
Qed.

(** X6: when some case is ready ([hasData()] for a receive case,
    [canSend()] for a send case), [select] does not stay waiting and does
    not take the default: it throws, or runs the action of a receive or
    send case. *)
Theorem select_settles_when_a_case_is_ready w cases (c : SelectCase T) :
  c ∈ cases → case_ready w c = true →
  (select w cases).2 ≠ SelectWaiting
  ∧ ∀ d, (select w cases).2 ≠ SelectRan (RanDefault d).
Proof.
  intros Hin Hready. unfold select.
  case_bool_decide as Hlen; [done|].
  destruct (classify cases _) as [cl|] eqn:Hcl; [|done].
  apply classify_some in Hcl as [Hrc Hsc]. simpl in Hrc, Hsc.
  assert (hasReadyOperation w cl = true) as Hrdy.
  { unfold hasReadyOperation. rewrite Hrc, Hsc. apply orb_true_iff.
    destruct (ready_case_found w cases c Hin Hready) as [H|H].
    - left. apply existsb_exists. apply List.Exists_exists in H as (x & Hx & Hd). eauto.
    - right. apply existsb_exists. apply List.Exists_exists in H as (x & Hx & Hd). eauto. }
  assert (∀ r : World T * SelectResult T,
            match defaultCase cl with
            | Some d => if negb (hasReadyOperation w cl) then (w, SelectRan (RanDefault d)) else r
            | None => r
            end = r) as Hslow.
  { intros r. rewrite Hrdy. by destruct (defaultCase cl). }
  rewrite Hslow. rewrite Hrc, Hsc.
  pose proof (start_receives_pending w (receives_of cases)) as HR.
  destruct (start_receives w (receives_of cases)) as [w1 rs1].
  pose proof (start_sends_pending w1 (sends_of cases)) as HS.
  destruct (start_sends w1 (sends_of cases)) as [w2 rs2]. simpl in *.
  split.
  - intros Hwait. apply race_waiting in Hwait.
    rewrite forallb_app in Hwait. apply andb_true_iff in Hwait as [Hw1 Hw2].
    destruct (HR Hw1) as (_ & Hcan & Hnodata). specialize (HS Hw2).
    destruct (ready_case_found w cases c Hin Hready) as [H|H].
    + apply List.Exists_exists in H as (x & Hx & Hd).
      rewrite List.Forall_forall in Hnodata. specialize (Hnodata x Hx). congruence.
    + apply List.Exists_exists in H as (x & Hx & Hd).
      rewrite List.Forall_forall in HS. specialize (HS x Hx).
      apply Hcan in Hd. congruence.
  - intros d Hd. pose proof (race_not_early (rs1 ++ rs2)) as He.
    by rewrite Hd in He.
Qed.

Lemma start_receives_started w (cs : list (ChanRef * ActionId)) :
  started (start_receives w cs).1
  = started w ++ imap (λ i c, StartedReceive c.1 (nextPromise w + i)) cs
  ∧ nextPromise (start_receives w cs).1 = nextPromise w + length cs.
Proof.
  revert w. induction cs as [|[c a] rest IH]; intros w; simpl.
  - by rewrite app_nil_r, Nat.add_0_r.
  - destruct (receive (chan w c) (nextPromise w)) as [[ch' r] wakes].
    set (w1 := mkWorld _ _ _ _). specialize (IH w1).
    destruct (start_receives w1 rest) as [w2 rs]. simpl in *.
    destruct IH as [-> ->]. split; [|lia].
    rewrite <- app_assoc. simpl. rewrite Nat.add_0_r. do 2 f_equal.
    apply imap_ext. intros i x _. simpl. f_equal. lia.
Qed.

Lemma start_sends_started w (cs : list (ChanRef * T * ActionId)) :
  started (start_sends w cs).1
  = started w ++ imap (λ i c, StartedSend c.1.1 c.1.2 (nextPromise w + i)) cs
  ∧ nextPromise (start_sends w cs).1 = nextPromise w + length cs.
Proof.
  revert w. induction cs as [|[[c v] a] rest IH]; intros w; simpl.
  - by rewrite app_nil_r, Nat.add_0_r.
  - destruct (send (chan w c) v (nextPromise w)) as [[ch' r] wakes].
    set (w1 := mkWorld _ _ _ _). specialize (IH w1).
    destruct (start_sends w1 rest) as [w2 rs]. simpl in *.
    destruct IH as [-> ->]. split; [|lia].
    rewrite <- app_assoc. simpl. rewrite Nat.add_0_r. do 2 f_equal.
    apply imap_ext. intros i x _. simpl. f_equal. lia.
Qed.

(** X7: [select] is all or nothing.  Either it returns early (empty case
    list, second default case, or the default action) and then no channel
    was touched and no operation started; or it has started one operation
    for every receive case and then one for every send case, whichever
    case wins, and cancels none of them. *)
Theorem select_starts_all_or_nothing w cases :
  let r := select w cases in
  if returned_early r.2 then r.1 = w
  else started r.1 = started w ++ operations_of (nextPromise w) cases
       ∧ nextPromise r.1
         = nextPromise w + length (receives_of cases) + length (sends_of cases).
Proof.
  unfold select. case_bool_decide; [done|].
  destruct (classify cases _) as [cl|] eqn:Hcl; [|done].
  apply classify_some in Hcl as [Hrc Hsc]. simpl in Hrc, Hsc.
  assert (let slow := let '(w1, rs1) := start_receives w (receiveCases cl) in
                      let '(w2, rs2) := start_sends w1 (sendCases cl) in
                      (w2, race (rs1 ++ rs2)) in
          returned_early slow.2 = false
          ∧ started slow.1 = started w ++ operations_of (nextPromise w) cases
          ∧ nextPromise slow.1
            = nextPromise w + length (receives_of cases) + length (sends_of cases))
    as Hslow.
  { rewrite Hrc, Hsc.
    destruct (start_receives_started w (receives_of cases)) as [H1 H2].
    destruct (start_receives w (receives_of cases)) as [w1 rs1].
    destruct (start_sends_started w1 (sends_of cases)) as [H3 H4].
    destruct (start_sends w1 (sends_of cases)) as [w2 rs2]. simpl in *.
    split_and!; [apply race_not_early| |lia].
    rewrite H3, H1, H2. unfold operations_of. by rewrite <- app_assoc. }
  cbv zeta in Hslow. destruct Hslow as (He & Hst & Hn).
  destruct (defaultCase cl) as [d|].
  - destruct (negb (hasReadyOperation w cl)); simpl; [done|].
    cbv zeta. by rewrite He.
  - cbv zeta. by rewrite He.
Qed.

End SelectMore.

(** * Further properties of cancellation contexts *)

Section ContextMore.
Import Ctx CtxX.
Implicit Types (c : DefaultContext) (h : Heap) (e : Error) (j : Job).

Lemma fresh_coherent : coherent fresh.
Proof. by left. Qed.

Lemma done_coherent c : coherent c → coherent (done c).
Proof.
  unfold coherent, done. intros [(Hd & Hr & He)|[(Hd & Hr & He)|(Hd & Hr)]]; rewrite Hd.
  - rewrite He. right. by left.
  - right. by left.
  - right. by right.
Qed.

Lemma cancel_coherent c args : coherent c → coherent (cancel c args).
Proof.
  unfold coherent, cancel. intros [(Hd & Hr & He)|[(Hd & Hr & He)|(Hd & Hr)]].
  - rewrite He, Hr. right. by right.
  - rewrite He, Hr. right. by right.
  - destruct (err c); [by right; right|].
    destruct (resolve c) as [r|]; [|done]. right. right. simpl.
    split; [|done]. by destruct r.
Qed.

(** A coherent context is Done exactly when its promise is resolved, and
    [cancel] always leaves it Done. *)
Lemma cancel_is_done c args : coherent c → is_done (cancel c args).
Proof.
  unfold coherent, cancel, is_done.
  intros [(Hd & Hr & He)|[(Hd & Hr & He)|(Hd & Hr)]].
  - by rewrite He, Hr.
  - by rewrite He, Hr.
  - destruct (err c); [done|]. destruct (resolve c) as [[|]|]; done.
Qed.

Lemma done_keeps_state c : coherent c → is_done (done c) ↔ is_done c.
Proof.
  unfold coherent, done, is_done.
  intros [(Hd & Hr & He)|[(Hd & Hr & He)|(Hd & Hr)]];
    rewrite Hd; try rewrite He; simpl; rewrite ?Hd; naive_solver.
Qed.

Lemma call_methods_coherent c (calls : list Method) :
  coherent c → coherent (foldl call_method c calls).
Proof.
  revert c. induction calls as [|m rest IH]; intros c Hc; [done|].
  simpl. apply IH. destruct m; [by apply done_coherent|by apply cancel_coherent].
Qed.

Lemma call_methods_done c (calls : list Method) :
  coherent c →
  is_done (foldl call_method c calls) ↔ is_done c ∨ existsb is_cancel calls = true.
Proof.
  revert c. induction calls as [|m rest IH]; intros c Hc; simpl.
  - split; [by left|]. by intros [?|?].
  - destruct m as [|args]; simpl.
    + rewrite IH by (by apply done_coherent). by rewrite done_keeps_state.
    + rewrite IH by (by apply cancel_coherent).
      split; [by right|]. intros _. left. by apply cancel_is_done.
Qed.

(** X8: the completion promise is created lazily, yet in whatever order
    [done()] and [cancel()] are called on a new context, the promise
    [done()] hands out is resolved exactly when [cancel] has been called
    (with or without a cause), and pending otherwise; a cause is only ever
    present after a [cancel]. *)
Theorem done_promise_resolved_iff_cancelled (calls : list Method) :
  let c := foldl call_method fresh calls in
  donePromise (done c)
  = Some (if existsb is_cancel calls then Resolved else Pending)
  ∧ (existsb is_cancel calls = false → err c = None).
Proof.
  intros c.
  assert (coherent c) as Hc by apply call_methods_coherent, fresh_coherent.
  pose proof (call_methods_done fresh calls fresh_coherent) as Hd. fold c in Hd.
  destruct (existsb is_cancel calls).
  - split; [|done]. apply done_keeps_state; [done|]. apply Hd. by right.
  - assert (¬ is_done c) as Hn.
    { intros H. apply Hd in H as [H|H]; done. }
    unfold coherent, is_done, done in *.
    destruct Hc as [(H1 & H2 & H3)|[(H1 & H2 & H3)|(H1 & H2)]]; [| |done].
    + by rewrite H1, H3.
    + by rewrite H1.
Qed.

(** What [cancel] on one context does to the heap. *)
Lemma h_cancel_spec h (r : CtxRef) args :
  let h' := h_cancel h r args in
  fields (obj h' r) = cancel (fields (obj h r)) args
  ∧ (∀ r', r ≠ r' → obj h' r' = obj h r')
  ∧ next h' = next h ∧ timers h' = timers h ∧ nextTimer h' = nextTimer h
  ∧ ((microtasks h' = microtasks h ∧ reactions (obj h' r) = reactions (obj h r))
     ∨ (donePromise (fields (obj h r)) = Some Pending
        ∧ donePromise (cancel (fields (obj h r)) args) = Some Resolved
        ∧ microtasks h' = microtasks h ++ reactions (obj h r)
        ∧ reactions (obj h' r) = [])).
Proof.
  unfold h_cancel.
  destruct (donePromise (fields (obj h r))) as [[|]|] eqn:Hd;
    destruct (donePromise (cancel (fields (obj h r)) args)) as [[|]|] eqn:Hd';
    simpl; rewrite ?fn_lookup_insert; simpl;
    (split_and!; [done|by intros; rewrite fn_lookup_insert_ne|done|done|done|]);
    first [by left | by right].
Qed.

Lemma h_cancel_flush h (r : CtxRef) args :
  donePromise (fields (obj h r)) = Some Pending →
  donePromise (cancel (fields (obj h r)) args) = Some Resolved →
  microtasks (h_cancel h r args) = microtasks h ++ reactions (obj h r)
  ∧ reactions (obj (h_cancel h r args) r) = [].
Proof.
  intros Hd Hd'. unfold h_cancel. rewrite Hd, Hd'. simpl.
  by rewrite fn_lookup_insert.
Qed.

Lemma h_cancel_no_flush h (r : CtxRef) args :
  donePromise (fields (obj h r)) ≠ Some Pending →
  microtasks (h_cancel h r args) = microtasks h
  ∧ reactions (obj (h_cancel h r args) r) = reactions (obj h r).
Proof.
  intros Hd. unfold h_cancel.
  destruct (donePromise (fields (obj h r))) as [[|]|]; [done|..];
    destruct (donePromise (cancel (fields (obj h r)) args)) as [[|]|];
    simpl; by rewrite fn_lookup_insert.
Qed.

Lemma h_cancel_keeps_error h (r p : CtxRef) args e :
  h_err h p = Some e → h_err (h_cancel h r args) p = Some e.
Proof.
  intros He. destruct (h_cancel_spec h r args) as (Hf & Hne & _).
  unfold h_err in *. destruct (decide (r = p)) as [->|Hrp].
  - rewrite Hf. by rewrite (cancel_with_error _ e).
  - by rewrite Hne.
Qed.

(** A turn of the microtask queue removes the first callback and appends
    at the end only. *)
Lemma run_microtask_spec h j rest :
  microtasks h = j :: rest →
  run_microtask h = run_job (mkHeap (obj h) (next h) rest (timers h) (nextTimer h)) j.
Proof. intros Hq. unfold run_microtask. by rewrite Hq. Qed.

Lemma run_job_queue h j :
  ∃ extra, microtasks (run_job h j) = microtasks h ++ extra
           ∧ ∀ n, (∀ r, Forall (job_below n) (reactions (obj h r))) →
                  Forall (job_below n) extra.
Proof.
  destruct j as [child parent|id]; simpl.
  - destruct (h_cancel_spec h child (Argument (h_err h parent)))
      as (_ & _ & _ & _ & _ & [[Hq _]|(_ & _ & Hq & _)]).
    + exists []. rewrite app_nil_r. split; [done|]. by intros.
    + exists (reactions (obj h child)). split; [done|]. by intros n Hall.
  - exists []. by rewrite app_nil_r.
Qed.

Lemma run_job_keeps_error h j (p : CtxRef) e :
  h_err h p = Some e → h_err (run_job h j) p = Some e.
Proof.
  destruct j as [child parent|id]; simpl; [|done].
  apply h_cancel_keeps_error.
Qed.

(** A callback that cancels another context leaves this one alone, and
    keeps the callbacks waiting anywhere from targeting it. *)
Lemma run_job_other h j (n : CtxRef) :
  job_below n j → (∀ r, Forall (job_below n) (reactions (obj h r))) →
  obj (run_job h j) n = obj h n
  ∧ (∀ r, Forall (job_below n) (reactions (obj (run_job h j) r))).
Proof.
  intros Hj Hall. destruct j as [child parent|id]; simpl in *; [|done].
  destruct (h_cancel_spec h child (Argument (h_err h parent)))
    as (_ & Hne & _ & _ & _ & Hq).
  split; [apply Hne; lia|].
  intros r. destruct (decide (child = r)) as [<-|Hcr]; [|by rewrite Hne].
  destruct Hq as [[_ ->]|(_ & _ & _ & ->)]; [done|by constructor].
Qed.

(** Running the callbacks queued ahead of one that cancels context [n]:
    that callback comes to the head of the queue, context [n] is untouched,
    and error causes stay. *)
Lemma run_prefix (n : CtxRef) pre h j post :
  microtasks h = pre ++ j :: post →
  Forall (job_below n) pre →
  (∀ r, Forall (job_below n) (reactions (obj h r))) →
  let h' := run_microtasks (length pre) h in
  (∃ post', microtasks h' = j :: post')
  ∧ obj h' n = obj h n
  ∧ (∀ p e, h_err h p = Some e → h_err h' p = Some e)
  ∧ next h' = next h.
Proof.
  revert h post. induction pre as [|j0 pre IH]; intros h post Hq Hpre Hall.
  { simpl in *. split_and!; eauto. }
  inversion_clear Hpre as [|? ? Hj0 Hpre'].
  unfold run_microtasks. simpl length. rewrite Nat.iter_succ_r.
  rewrite (run_microtask_spec h j0 (pre ++ j :: post)) by done.
  set (h0 := mkHeap _ _ _ _ _).
  destruct (run_job_queue h0 j0) as (extra & Hq' & _).
  destruct (run_job_other h0 j0 n Hj0 Hall) as [Hobj Hall'].
  specialize (IH (run_job h0 j0) (post ++ extra)).
  destruct IH as (Hhead & Hn & Herr & Hnext); [|done|done|].
  { rewrite Hq'. simpl. by rewrite <- app_assoc. }
  unfold run_microtasks in *.
  split_and!; [done|by rewrite Hn, Hobj| |].
  - intros p e He. apply Herr. by apply run_job_keeps_error.
  - rewrite Hnext. destruct j0 as [c0 p0|id0]; [|done].
    by destruct (h_cancel_spec h0 c0 (Argument (h_err h0 p0))) as (_ & _ & ? & _).
Qed.

(** The state of a heap right after a child was derived from a parent
    without an error cause. *)
Lemma new_DefaultContext_active_parent h (parent : CtxRef) :
  wf h → parent < next h → h_err h parent = None →
  let r := new_DefaultContext h (Some parent) in
  r.2 = next h ∧ next r.1 = S (next h)
  ∧ obj r.1 (next h) = mkObj fresh []
  ∧ fields (obj r.1 parent) = done (fields (obj h parent))
  ∧ (∀ r', r' ≠ next h → r' ≠ parent → obj r.1 r' = obj h r')
  ∧ timers r.1 = timers h ∧ nextTimer r.1 = nextTimer h
  ∧ ((is_done (fields (obj h parent))
      ∧ microtasks r.1 = microtasks h ++ [Propagate (next h) parent]
      ∧ reactions (obj r.1 parent) = reactions (obj h parent))
     ∨ (donePromise (done (fields (obj h parent))) = Some Pending
        ∧ resolve (done (fields (obj h parent))) = Some ResolveDonePromise
        ∧ microtasks r.1 = microtasks h
        ∧ reactions (obj r.1 parent)
          = reactions (obj h parent) ++ [Propagate (next h) parent])).
Proof.
  intros Hwf Hlt He. unfold new_DefaultContext, h_err in *. simpl.
  rewrite fn_lookup_insert_ne by lia. rewrite He.
  unfold h_done_then. simpl. rewrite fn_lookup_insert_ne by lia.
  pose proof (wf_coherent _ Hwf parent) as Hc.
  assert (∀ o, (<[parent:=o]> (<[next h:=mkObj fresh []]> (obj h))) (next h)
               = mkObj fresh []) as Hchild.
  { intros o. rewrite fn_lookup_insert_ne by lia. apply fn_lookup_insert. }
  assert (∀ o r', r' ≠ next h → r' ≠ parent →
            (<[parent:=o]> (<[next h:=mkObj fresh []]> (obj h))) r' = obj h r') as Hother.
  { intros o r' H1 H2. by rewrite !fn_lookup_insert_ne. }
  destruct Hc as [(Hd & Hr & _)|[(Hd & Hr & _)|(Hd & Hr)]].
  - unfold done. rewrite Hd, He. simpl. rewrite fn_lookup_insert. simpl.
    split_and!; [done|done|apply Hchild|done|apply Hother|done|done|]. by right.
  - unfold done. rewrite Hd. rewrite Hd. simpl. rewrite fn_lookup_insert. simpl.
    split_and!; [done|done|apply Hchild|done|apply Hother|done|done|]. by right.
  - unfold done. rewrite Hd. rewrite Hd. simpl. rewrite fn_lookup_insert. simpl.
    split_and!; [done|done|apply Hchild|done|apply Hother|done|done|]. by left.
Qed.

(** X9: a parent cancelled with an error after a child was derived from
    it: the child is untouched when [cancel] returns, and has the parent's
    error, and is Done, once the microtasks queued by then have run. *)
Theorem later_cancellation_reaches_child h (parent : CtxRef) e :
  wf h → parent < next h → h_err h parent = None →
  let derived := new_DefaultContext h (Some parent) in
  let h2 := h_cancel derived.1 parent (Argument (Some e)) in
  let h3 := run_microtasks (length (microtasks h2)) h2 in
  h_err h2 parent = Some e
  ∧ h_err h2 derived.2 = None
  ∧ h_err h3 derived.2 = Some e
  ∧ is_done (fields (obj h3 derived.2))
  ∧ h_err h3 parent = Some e.
Proof.
  intros Hwf Hlt He derived h2 h3.
  destruct (new_DefaultContext_active_parent h parent Hwf Hlt He)
    as (Hchild & Hnext & Hobj & Hpf & Hother & _ & _ & Hq).
  fold derived in Hchild, Hnext, Hobj, Hpf, Hother, Hq.
  destruct derived as [h1 child]. simpl in *. subst child.
  destruct (h_cancel_spec h1 parent (Argument (Some e)))
    as (Hf & Hne & Hn2 & _ & _ & Hq2). fold h2 in Hf, Hne, Hn2, Hq2.
  assert (err (fields (obj h1 parent)) = None) as He1.
  { rewrite Hpf. unfold done. unfold h_err in He.
    destruct (donePromise (fields (obj h parent))); [done|]. by rewrite He. }
  assert (h_err h2 parent = Some e) as Hpe.
  { unfold h_err. rewrite Hf. unfold cancel. rewrite He1.
    by destruct (resolve (fields (obj h1 parent))). }
  assert (obj h2 (next h) = mkObj fresh []) as Hc2.
  { rewrite Hne by lia. done. }
  assert (∃ pre, microtasks h2 = pre ++ [Propagate (next h) parent]
                 ∧ Forall (job_below (next h)) pre
                 ∧ ∀ r, Forall (job_below (next h)) (reactions (obj h2 r))) as Hshape.
  { pose proof (wf_microtasks _ Hwf) as Hm. pose proof (wf_reactions _ Hwf) as Hr.
    assert (∀ r, r ≠ parent → Forall (job_below (next h)) (reactions (obj h2 r))) as Hrest.
    { intros r Hrp. rewrite Hne by done.
      destruct (decide (r = next h)) as [->|Hrn]; [by rewrite Hobj|].
      by rewrite Hother. }
    destruct Hq as [(Hdone & Hm1 & Hr1)|(Hpend & Hres & Hm1 & Hr1)].
    - exists (microtasks h).
      destruct (h_cancel_no_flush h1 parent (Argument (Some e))) as [Hm2 Hr2].
      { rewrite Hpf. unfold done, is_done in *. rewrite Hdone. congruence. }
      fold h2 in Hm2, Hr2. split_and!; [congruence|done|].
      intros r. destruct (decide (r = parent)) as [->|Hrp]; [|by apply Hrest].
      rewrite Hr2, Hr1. apply Hr.
    - exists (microtasks h ++ reactions (obj h parent)).
      destruct (h_cancel_flush h1 parent (Argument (Some e))) as [Hm2 Hr2].
      { by rewrite Hpf. }
      { rewrite Hpf. unfold cancel. rewrite <- Hpf, He1, Hpf, Hres. done. }
      fold h2 in Hm2, Hr2. split_and!.
      + rewrite Hm2, Hm1, Hr1. by rewrite app_assoc.
      + apply Forall_app. split; [done|apply Hr].
      + intros r. destruct (decide (r = parent)) as [->|Hrp]; [|by apply Hrest].
        rewrite Hr2. constructor. }
  destruct Hshape as (pre & Hm2 & Hpre & Hreact).
  destruct (run_prefix (next h) pre h2 (Propagate (next h) parent) [] Hm2 Hpre Hreact)
    as ((post' & Hhead) & Hn & Herr & _).
  assert (h3 = run_microtask (run_microtasks (length pre) h2)) as ->.
  { unfold h3. rewrite Hm2, length_app. simpl.
    replace (length pre + 1) with (S (length pre)) by lia. done. }
  rewrite (run_microtask_spec _ _ _ Hhead). simpl.
  set (h' := mkHeap _ _ _ _ _).
  assert (h_err h' parent = Some e) as Hpe' by (by apply Herr).
  rewrite Hpe'.
  destruct (h_cancel_spec h' (next h) (Argument (Some e))) as (Hf3 & Hne3 & _).
  assert (fields (obj h' (next h)) = fresh) as Hfresh.
  { unfold h'. simpl. by rewrite Hn, Hc2. }
  unfold h_err in *. rewrite Hf3, Hfresh. simpl.
  split_and!; [done|by rewrite Hc2|done|done|].
  rewrite Hne3 by lia. done.
Qed.

(** X10: a child derived from a parent that completed cleanly (Done, no
    cause) is not Done when the deriving call returns, and is Done, with
    the cause the parent then has, once the microtasks queued by then
    have run. *)
Theorem child_of_cleanly_done_parent_completes h (parent : CtxRef) :
  wf h → parent < next h →
  is_done (fields (obj h parent)) → h_err h parent = None →
  let derived := new_DefaultContext h (Some parent) in
  let h3 := run_microtasks (length (microtasks derived.1)) derived.1 in
  ¬ is_done (fields (obj derived.1 derived.2))
  ∧ is_done (fields (obj h3 derived.2))
  ∧ h_err h3 derived.2 = h_err h3 parent.
Proof.
  intros Hwf Hlt Hdone He derived h3.
  destruct (new_DefaultContext_active_parent h parent Hwf Hlt He)
    as (Hchild & Hnext & Hobj & Hpf & Hother & _ & _ & Hq).
  fold derived in Hchild, Hnext, Hobj, Hpf, Hother, Hq.
  destruct derived as [h1 child]. simpl in *. subst child.
  destruct Hq as [(_ & Hm1 & Hr1)|(Hpend & _)]; last first.
  { unfold done, is_done in *. rewrite Hdone in Hpend. congruence. }
  assert (∀ r, Forall (job_below (next h)) (reactions (obj h1 r))) as Hreact.
  { pose proof (wf_reactions _ Hwf) as Hr. intros r.
    destruct (decide (r = parent)) as [->|Hrp]; [by rewrite Hr1|].
    destruct (decide (r = next h)) as [->|Hrn]; [by rewrite Hobj|].
    by rewrite Hother. }
  destruct (run_prefix (next h) (microtasks h) h1 (Propagate (next h) parent) []
              Hm1 (wf_microtasks _ Hwf) Hreact) as ((post' & Hhead) & Hn & _).
  assert (h3 = run_microtask (run_microtasks (length (microtasks h)) h1)) as ->.
  { unfold h3. rewrite Hm1, length_app. simpl.
    replace (length (microtasks h) + 1) with (S (length (microtasks h))) by lia. done. }
  rewrite (run_microtask_spec _ _ _ Hhead). simpl.
  set (h' := mkHeap _ _ _ _ _).
  destruct (h_cancel_spec h' (next h) (Argument (h_err h' parent))) as (Hf3 & Hne3 & _).
  assert (fields (obj h' (next h)) = fresh) as Hfresh.
  { unfold h'. simpl. by rewrite Hn, Hobj. }
  unfold h_err, is_done in *. rewrite Hf3, Hfresh, Hobj. simpl.
  split_and!; [done|done|]. rewrite Hne3 by lia. done.
Qed.

(** The queue is first in, first out: after as many turns as there are
    callbacks ahead of it, a callback is at the head. *)
Lemma run_to_head pre h j post :
  microtasks h = pre ++ j :: post →
  ∃ post', microtasks (run_microtasks (length pre) h) = j :: post'.
Proof.
  revert h post. induction pre as [|j0 pre IH]; intros h post Hq; [by eexists|].
  unfold run_microtasks. simpl length. rewrite Nat.iter_succ_r.
  rewrite (run_microtask_spec h j0 (pre ++ j :: post)) by done.
  set (h0 := mkHeap _ _ _ _ _).
  destruct (run_job_queue h0 j0) as (extra & Hq' & _).
  apply (IH (run_job h0 j0) (post ++ extra)).
  rewrite Hq'. simpl. by rewrite <- app_assoc.
Qed.

(** Once the callback that clears a timer has run, the timer is not armed
    and firing it does nothing. *)
Lemma run_clear_timeout pre h (id : TimerId) :
  microtasks h = pre ++ [ClearTimeout id] →
  let h3 := run_microtasks (length (microtasks h)) h in
  ¬ armed h3 id ∧ fire_timer h3 id = h3.
Proof.
  intros Hq h3. destruct (run_to_head pre h (ClearTimeout id) [] Hq) as (post' & Hhead).
  assert (h3 = run_microtask (run_microtasks (length pre) h)) as ->.
  { unfold h3. rewrite Hq, length_app. simpl.
    replace (length pre + 1) with (S (length pre)) by lia. done. }
  rewrite (run_microtask_spec _ _ _ Hhead). simpl.
  set (ts := timers _).
  assert (Forall (λ t : TimerId * CtxRef, ¬ t.1 = id) (filter (λ t, t.1 ≠ id) ts)) as Hall.
  { apply Forall_forall. intros t Ht. apply list_elem_of_In in Ht.
    by apply list_elem_of_filter in Ht as [? _]. }
  split.
  - unfold armed. simpl. intros Hin.
    apply list_elem_of_fmap in Hin as (t & Ht & Hin).
    apply list_elem_of_filter in Hin as [Hne _]. done.
  - unfold fire_timer. simpl.
    destruct (list_find _ _) as [[i [id' c']]|] eqn:Hfind; [|done].
    apply list_find_Some in Hfind as (Hl & Heq & _). simpl in Heq.
    apply list_elem_of_lookup_2 in Hl. apply list_elem_of_filter in Hl as [Hne _].
    done.
Qed.

(** The heap right after [withTimeout] on a parent without an error cause. *)
Lemma withTimeout_active_parent h (parent : CtxRef) :
  wf h → parent < next h → h_err h parent = None →
  let t := withTimeout h parent in
  t.2 = next h
  ∧ timers t.1 = timers h ++ [(nextTimer h, next h)]
  ∧ obj t.1 (next h)
    = mkObj (mkContext (Some Pending) (Some ResolveDonePromise) None)
            [ClearTimeout (nextTimer h)]
  ∧ next t.1 = S (next h).
Proof.
  intros Hwf Hlt He. unfold withTimeout.
  destruct (new_DefaultContext_active_parent h parent Hwf Hlt He)
    as (Hchild & Hnext & Hobj & _ & _ & Htm & Hnt & _).
  destruct (new_DefaultContext h (Some parent)) as [h1 ctx]. simpl in *. subst ctx.
  unfold h_done_then. simpl. rewrite Hobj. simpl. rewrite fn_lookup_insert.
  by rewrite Htm, Hnt.
Qed.

(** X11: the timer armed by [withTimeout] on a parent without an error
    cause.  If it fires while the context is not Done, the context is Done
    with a timeout error and the timer is gone.  If the context is
    cancelled first (with any arguments), then once the microtasks queued
    by then have run the timer is disarmed, and firing it changes
    nothing. *)
Theorem timeout_timer_fires_or_is_disarmed h (parent : CtxRef) (args : CancelArgs) :
  wf h → parent < next h → h_err h parent = None →
  let t := withTimeout h parent in
  let id := nextTimer h in
  armed t.1 id
  ∧ (let fired := fire_timer t.1 id in
     h_err fired t.2 = Some ContextTimeoutError
     ∧ is_done (fields (obj fired t.2)) ∧ ¬ armed fired id)
  ∧ (let h2 := h_cancel t.1 t.2 args in
     let h3 := run_microtasks (length (microtasks h2)) h2 in
     ¬ armed h3 id ∧ fire_timer h3 id = h3).
Proof.
  intros Hwf Hlt He t id.
  destruct (withTimeout_active_parent h parent Hwf Hlt He) as (Hctx & Htm & Hobj & Hnext).
  fold t in Hctx, Htm, Hobj, Hnext. destruct t as [h1 ctx]. simpl in *. subst ctx.
  split; [|split].
  - unfold armed. rewrite Htm, fmap_app. apply elem_of_app. right. by left.
  - assert (∀ h1', timers h1' = filter (λ t, t.1 ≠ id) (timers h1) →
                   obj h1' = obj h1 →
                   let fired := h_cancel h1' (next h) (Argument (Some ContextTimeoutError)) in
                   h_err fired (next h) = Some ContextTimeoutError
                   ∧ is_done (fields (obj fired (next h))) ∧ ¬ armed fired id) as Hfire.
    { intros h1' Htm' Hobj' fired.
      destruct (h_cancel_spec h1' (next h) (Argument (Some ContextTimeoutError)))
        as (Hf & _ & _ & Htm'' & _). fold fired in Hf, Htm''.
      unfold h_err, is_done, armed. rewrite Hf, Htm'', Htm', Hobj', Hobj. simpl.
      split_and!; [done|done|]. intros Hin.
      apply list_elem_of_fmap in Hin as (x & Hx & Hin).
      by apply list_elem_of_filter in Hin as [Hne _]. }
    unfold fire_timer.
    destruct (list_find _ _) as [[i [id' c']]|] eqn:Hfind.
    + apply list_find_Some in Hfind as (Hl & Heq & _). simpl in Heq. subst id'.
      rewrite Htm in Hl. apply lookup_app_Some in Hl as [Hl|[_ Hl]].
      * pose proof (wf_timers _ Hwf) as Hts. rewrite Forall_forall in Hts.
        apply list_elem_of_lookup_2, list_elem_of_In in Hl.
        specialize (Hts _ Hl). simpl in *. unfold id in *. lia.
      * apply list_lookup_singleton_Some in Hl as [_ [= <-]]. by apply Hfire.
    + apply list_find_None in Hfind. rewrite Htm in Hfind.
      apply Forall_app in Hfind as [_ Hlast].
      inversion_clear Hlast as [|? ? Hne _]. by simpl in Hne.
  - destruct (h_cancel_flush h1 (next h) args) as [Hm2 _].
    { by rewrite Hobj. }
    { rewrite Hobj. by destruct args. }
    rewrite Hobj in Hm2. simpl in Hm2.
    by apply (run_clear_timeout (microtasks h1)).
Qed.

Lemma h_done_then_resolved h (r : CtxRef) j :
  donePromise (fields (obj h r)) = Some Resolved →
  microtasks (h_done_then h r j) = microtasks h ++ [j]
  ∧ fields (obj (h_done_then h r j) r) = fields (obj h r).
Proof.
  intros Hd. unfold h_done_then, done. rewrite Hd. rewrite Hd. simpl.
  by rewrite fn_lookup_insert.
Qed.

(** X12: [withTimeout] on a parent that already has an error cause: the
    new context has that cause at once, and once the microtasks queued by
    then have run its timer is disarmed; it cannot time out. *)
Theorem timeout_on_cancelled_parent_is_disarmed h (parent : CtxRef) e :
  parent < next h → h_err h parent = Some e →
  let t := withTimeout h parent in
  let h3 := run_microtasks (length (microtasks t.1)) t.1 in
  h_err t.1 t.2 = Some e
  ∧ ¬ armed h3 (nextTimer h) ∧ fire_timer h3 (nextTimer h) = h3.
Proof.
  intros Hlt He. cbv zeta.
  pose proof (new_DefaultContext_done_parent h parent e Hlt He) as Hnew.
  cbv zeta in Hnew. unfold withTimeout.
  destruct (new_DefaultContext h (Some parent)) as [h1 ctx]. simpl in *.
  destruct Hnew as (-> & Hf & _ & Hnt). rewrite Hnt.
  set (hT := mkHeap _ _ _ _ _).
  destruct (h_done_then_resolved hT (next h) (ClearTimeout (nextTimer h))) as [Hm Hf'].
  { unfold hT. simpl. by rewrite Hf. }
  split.
  - unfold h_err. rewrite Hf'. unfold hT. simpl. by rewrite Hf.
  - by apply (run_clear_timeout (microtasks hT)).
Qed.

(** Well-formedness is kept by every operation on the heap. *)
Lemma job_below_mono (n m : CtxRef) j : n ≤ m → job_below n j → job_below m j.
Proof. intros Hle. destruct j; simpl; [lia|done]. Qed.

Lemma wf_initial : wf initial.
Proof. split; simpl; try done. intros r. apply fresh_coherent. Qed.

Lemma wf_h_cancel h (r : CtxRef) args : wf h → wf (h_cancel h r args).
Proof.
  intros [Hc Hm Hr Ht].
  destruct (h_cancel_spec h r args) as (Hf & Hne & Hn & Htm & Hnt & Hq).
  split.
  - intros r'. destruct (decide (r = r')) as [<-|Hrr]; [|by rewrite Hne].
    rewrite Hf. by apply cancel_coherent.
  - rewrite Hn. destruct Hq as [[-> _]|(_ & _ & -> & _)]; [done|].
    apply Forall_app. split; [done|apply Hr].
  - intros r'. rewrite Hn. destruct (decide (r = r')) as [<-|Hrr]; [|by rewrite Hne].
    destruct Hq as [[_ ->]|(_ & _ & _ & ->)]; [done|constructor].
  - by rewrite Htm, Hnt.
Qed.

Lemma wf_h_done_then h (r : CtxRef) j :
  wf h → job_below (next h) j → wf (h_done_then h r j).
Proof.
  intros [Hc Hm Hr Ht] Hj. unfold h_done_then.
  destruct (donePromise (done (fields (obj h r)))) as [[|]|] eqn:Hd; split; simpl;
    try done;
    try (intros r'; destruct (decide (r = r')) as [<-|Hrr];
         [rewrite fn_lookup_insert|rewrite fn_lookup_insert_ne by done]; simpl;
         first [by apply done_coherent | done | (apply Forall_app; split; [done|by constructor])]).
  apply Forall_app. split; [done|by constructor].
Qed.

Lemma wf_new_DefaultContext h (parent : option CtxRef) :
  wf h → (∀ p, parent = Some p → p < next h) → wf (new_DefaultContext h parent).1.
Proof.
  intros [Hc Hm Hr Ht] Hp. unfold new_DefaultContext.
  set (h0 := mkHeap _ _ _ _ _).
  assert (wf h0) as Hwf0.
  { split; simpl; [| | |done].
    - intros r. destruct (decide (next h = r)) as [<-|Hne].
      + rewrite fn_lookup_insert. apply fresh_coherent.
      + by rewrite fn_lookup_insert_ne.
    - eapply List.Forall_impl; [|exact Hm]. intros j. apply job_below_mono. lia.
    - intros r. destruct (decide (next h = r)) as [<-|Hne].
      + rewrite fn_lookup_insert. constructor.
      + rewrite fn_lookup_insert_ne by done.
        eapply List.Forall_impl; [|exact (Hr r)]. intros j. apply job_below_mono. lia. }
  destruct parent as [p|]; [|done].
  destruct (h_err h0 p); simpl.
  - by apply wf_h_cancel.
  - apply wf_h_done_then; [done|]. simpl. lia.
Qed.

Lemma wf_run_microtask h : wf h → wf (run_microtask h).
Proof.
  intros Hwf. unfold run_microtask.
  destruct (microtasks h) as [|j rest] eqn:Hq; [done|].
  destruct Hwf as [Hc Hm Hr Ht]. rewrite Hq in Hm.
  inversion_clear Hm as [|? ? Hj Hrest].
  set (h0 := mkHeap _ _ _ _ _).
  assert (wf h0) as Hwf0 by (by split).
  destruct j as [child parent|id]; simpl.
  - by apply wf_h_cancel.
  - split; simpl; try done.
    apply Forall_forall. intros t Hin. apply list_elem_of_In in Hin.
    apply list_elem_of_filter in Hin as [_ Hin].
    rewrite Forall_forall in Ht. apply Ht. by apply list_elem_of_In.
Qed.

Lemma wf_withTimeout h (parent : CtxRef) :
  wf h → parent < next h → wf (withTimeout h parent).1.
Proof.
  intros Hwf Hlt. unfold withTimeout.
  pose proof (wf_new_DefaultContext h (Some parent) Hwf) as Hwf1.
  destruct (new_DefaultContext h (Some parent)) as [h1 ctx]. simpl in *.
  apply wf_h_done_then; [|done].
  destruct Hwf1 as [Hc Hm Hr Ht]; [by intros p [= <-]|].
  split; simpl; try done.
  apply Forall_app. split.
  - eapply List.Forall_impl; [|exact Ht]. intros t. simpl. lia.
  - constructor; [simpl; lia|constructor].
Qed.

Lemma wf_fire_timer h (id : TimerId) : wf h → wf (fire_timer h id).
Proof.
  intros Hwf. unfold fire_timer.
  destruct (list_find _ _) as [[i [id' ctx]]|]; [|done].
  apply wf_h_cancel. destruct Hwf as [Hc Hm Hr Ht]. split; simpl; try done.
  apply Forall_forall. intros t Hin. apply list_elem_of_In in Hin.
  apply list_elem_of_filter in Hin as [_ Hin].
  rewrite Forall_forall in Ht. apply Ht. by apply list_elem_of_In.
Qed.

End ContextMore.

(** * Properties of AfterFuncContext *)

Section AfterFuncFacts.
Import AfterFunc.

Lemma run_spent (evs : list Event) : run (mkAfterFunc None true) evs = spent <$> evs.
Proof.
  induction evs as [|ev rest IH]; [done|].
  destruct ev; simpl; by rewrite IH.
Qed.

(** X13: of the events that reach an [AfterFuncContext] (the parent's
    completion, calls of the stop function), the first one wins: if it is
    the parent's completion the callback runs, once, and every later
    [stop()] returns false; if it is [stop()], that call returns true,
    every later one returns false, and the callback never runs. *)
Theorem afterFunc_first_event_wins (f : FnId) (ev : Event) (rest : list Event) :
  run (new_AfterFuncContext f) (ev :: rest)
  = (match ev with ParentDone => Ran f | Stop => Stopped true end) :: (spent <$> rest).
Proof. destruct ev; simpl; by rewrite run_spent. Qed.

End AfterFuncFacts.

(** * Further properties of Once *)

Section OnceMore.
Import OnceM OnceX.
Implicit Types (m : Machine) (b f : Body) (p : PromiseId).

(** The closure ends suspended, one suspension closer to the end, or
    finished with the outcome of the guarded function. *)
Lemma exec_outcome b first p m :
  state (once m) = 1 → suspended m = [] →
  let m' := exec first b p m in
  (state (once m') = 1 ∧ settled m' = settled m
   ∧ ∃ k, suspended m' = [(p, k)] ∧ final_outcome k = final_outcome b
          ∧ S (suspensions false k) = suspensions first b)
  ∨ (state (once m') = 2 ∧ suspended m' = []
     ∧ settled m' = <[p := Settled (final_outcome b)]> (settled m)
     ∧ suspensions first b = 0).
Proof.
  revert first m. induction b as [v|e|k IHk|g _ k IHk]; intros first m Hst Hsus; simpl.
  - destruct first; simpl.
    + left. rewrite Hsus. split_and!; try done. by exists (Return v).
    + by right.
  - by right.
  - left. rewrite Hsus. split_and!; try done. by exists k.
  - unfold do_with. rewrite Hst. by apply (IHk first (return_promise Nested m)).
Qed.

Lemma tracks_mono f n n' m : n ≤ n' → tracks f n m → tracks f n' m.
Proof.
  unfold tracks. intros Hle.
  destruct (state (once m)) as [|[|[|?]]]; try done.
  intros (k & H1 & H2 & H3 & H4). exists k. split_and!; try done. lia.
Qed.

Lemma do_first_tracks f :
  tracks f (suspensions true f) (do f initial).
Proof.
  unfold do, do_with. simpl.
  set (m2 := mkMachine _ _ _ _ _ _).
  destruct (exec_outcome f true 0 m2 eq_refl eq_refl)
    as [(H1 & H2 & k & H3 & H4 & H5)|(H1 & H2 & H3 & H4)]; unfold tracks; simpl;
    rewrite H1.
  - exists k. split_and!; try done; [lia|]. by rewrite H2.
  - split_and!; try done.
    + rewrite H3. apply fn_lookup_insert.
    + intros p Hp. rewrite H3. by rewrite fn_lookup_insert_ne.
Qed.

Lemma do_tracks f g n m : tracks f n m → tracks f n (do g m).
Proof.
  unfold tracks, do, do_with.
  destruct (state (once m)) as [|[|[|?]]] eqn:Hst; try done; simpl; by rewrite Hst.
Qed.

Lemma tick_tracks f n m : tracks f n m → tracks f (n - 1) (tick m).
Proof.
  unfold tracks, tick.
  destruct (state (once m)) as [|[|[|?]]] eqn:Hst; try done.
  - intros (k & Hs & Hf & Hn & Hp). rewrite Hs.
    set (m1 := mkMachine _ _ _ _ _ _).
    destruct (exec_outcome k false 0 m1 Hst eq_refl)
      as [(H1 & H2 & k' & H3 & H4 & H5)|(H1 & H2 & H3 & H4)]; rewrite H1.
    + exists k'. split_and!; try done; [congruence|lia|]. by rewrite H2.
    + split_and!; try done.
      * rewrite H3, Hf. apply fn_lookup_insert.
      * intros p Hne. rewrite H3. rewrite fn_lookup_insert_ne by done. apply Hp.
  - intros (Hs & H0 & Hp). by rewrite Hs, Hst.
Qed.

Lemma run_tracks f n m (evs : list Event) :
  tracks f n m → tracks f (n - length (filter (λ ev, is_tick ev = true) evs)) (foldl step m evs).
Proof.
  revert n m. induction evs as [|ev rest IH]; intros n m Ht.
  - simpl. by rewrite Nat.sub_0_r.
  - destruct ev as [g|].
    + rewrite filter_cons_False by done. simpl. apply IH. by apply do_tracks.
    + rewrite filter_cons_True by done. simpl.
      replace (n - S (length (filter (λ ev, is_tick ev = true) rest)))
        with (n - 1 - length (filter (λ ev, is_tick ev = true) rest)) by lia.
      apply IH. by apply tick_tracks.
Qed.

(** X14: the memoized outcome is that of the function given to the first
    [do] call.  Whatever calls and resumptions follow, the only promise
    ever settled is the memoized one, and only with the outcome of that
    first function; and once the closure has been resumed as often as the
    function suspends, the promise is settled, whatever other [do] calls
    came in between. *)
Theorem once_memoizes_first_function (f : Body) (evs : list Event) :
  let m := run (CallDo f :: evs) in
  (∀ p o, settled m p = Settled o → p = 0 ∧ o = final_outcome f)
  ∧ (suspensions true f ≤ length (filter (λ ev, is_tick ev = true) evs) →
     state (once m) = 2 ∧ observe m (Some 0) = Settled (final_outcome f)).
Proof.
  intros m.
  pose proof (run_tracks f _ _ evs (do_first_tracks f)) as Ht.
  change (foldl step (do f initial) evs) with m in Ht.
  unfold tracks in Ht. split.
  - intros p o Hp.
    destruct (state (once m)) as [|[|[|?]]]; try done.
    + destruct Ht as (k & _ & _ & _ & Hall). rewrite Hall in Hp. done.
    + destruct Ht as (_ & H0 & Hall).
      destruct (decide (p = 0)) as [->|Hne]; [split; [done|congruence]|].
      rewrite Hall in Hp by done. done.
  - intros Hle.
    destruct (state (once m)) as [|[|[|?]]]; try done.
    + destruct Ht as (k & _ & _ & Hlt & _). lia.
    + by destruct Ht as (_ & H0 & _).
Qed.

End OnceMore.

(** * Instances of the further properties *)

Lemma senders_are_conserved_witness :
  let ch := Chan.mkChannel (T:=nat) (Some [Some 1]) 1 0 0 1 false
              [Chan.mkSendWaiter 2 20; Chan.mkSendWaiter 3 21] [] in
  ChanX.sender_ids ch ++ ChanX.queued_sender ch (Chan.OpReceive 5)
  = ChanX.woken_senders (Chan.step ch (Chan.OpReceive 5)).2
    ++ ChanX.sender_ids (Chan.step ch (Chan.OpReceive 5)).1.
Proof.
  refine (senders_are_conserved (T:=nat) _ (Chan.OpReceive 5) _). discriminate.
Defined.

Lemma values_are_received_in_send_order_witness :
  let ch := Chan.mkChannel (T:=nat) (Some [None]) 1 0 0 0 false [] [] in
  (Chan.receive_each (Chan.send_each ch [(1, 10); (2, 11); (3, 12)]).1.1 [20; 21; 22]).2
  = [Chan.Received (Some 1) true; Chan.Received (Some 2) true; Chan.Received (Some 3) true].
Proof.
  refine (values_are_received_in_send_order (T:=nat)
    (Chan.mkChannel (Some [None]) 1 0 0 0 false [] [])
    [(1, 10); (2, 11); (3, 12)] [20; 21; 22] _ _ _ _);
    [concrete_Inv|reflexivity..].
Defined.

Lemma select_settles_when_a_case_is_ready_witness :
  let full := Chan.mkChannel (T:=nat) (Some [Some 4]) 1 0 0 1 false [] [] in
  let w := Sel.mkWorld (λ _, full) 0 [] [] in
  (Sel.select w [Sel.DefaultCase 9; Sel.ReceiveCase 0 10]).2 ≠ Sel.SelectWaiting.
Proof.
  refine (proj1 (select_settles_when_a_case_is_ready (T:=nat) _
    [Sel.DefaultCase 9; Sel.ReceiveCase 0 10] (Sel.ReceiveCase 0 10) _ _)).
  - apply elem_of_cons. right. apply elem_of_cons. by left.
  - reflexivity.
Defined.

Lemma done_promise_resolved_iff_cancelled_witness :
  Ctx.err (foldl CtxX.call_method Ctx.fresh [CtxX.CallDone; CtxX.CallDone]) = None.
Proof.
  exact (proj2 (done_promise_resolved_iff_cancelled [CtxX.CallDone; CtxX.CallDone]) eq_refl).
Defined.

Lemma later_cancellation_reaches_child_witness :
  let derived := Ctx.new_DefaultContext Ctx.initial (Some 0) in
  let h2 := Ctx.h_cancel derived.1 0 (Ctx.Argument (Some (Ctx.OtherError 1))) in
  let h3 := CtxX.run_microtasks (length (Ctx.microtasks h2)) h2 in
  Ctx.h_err h3 derived.2 = Some (Ctx.OtherError 1).
Proof.
  refine (proj1 (proj2 (proj2 (later_cancellation_reaches_child Ctx.initial 0
    (Ctx.OtherError 1) _ _ _)))).
  - split; simpl; try done. intros r. by left.
  - simpl. lia.
  - reflexivity.
Defined.

Lemma child_of_cleanly_done_parent_completes_witness :
  let h := Ctx.cancelCauseFunc (Ctx.withCancelCause Ctx.initial 0).1 1 None in
  let derived := Ctx.new_DefaultContext h (Some 1) in
  let h3 := CtxX.run_microtasks (length (Ctx.microtasks derived.1)) derived.1 in
  Ctx.is_done (Ctx.fields (Ctx.obj h3 derived.2)).
Proof.
  refine (proj1 (proj2 (child_of_cleanly_done_parent_completes
    (Ctx.cancelCauseFunc (Ctx.withCancelCause Ctx.initial 0).1 1 None) 1 _ _ _ _))).
  - apply wf_h_cancel. apply wf_new_DefaultContext; [apply wf_initial|].
    intros p [= <-]. simpl. lia.
  - vm_compute. lia.
  - reflexivity.
  - reflexivity.
Defined.

Lemma timeout_timer_fires_or_is_disarmed_witness :
  let t := Ctx.withTimeout Ctx.initial 0 in
  CtxX.armed t.1 0
  ∧ Ctx.h_err (Ctx.fire_timer t.1 0) t.2 = Some Ctx.ContextTimeoutError.
Proof.
  pose proof (timeout_timer_fires_or_is_disarmed Ctx.initial 0 Ctx.NoArgument) as H.
  destruct H as (H1 & (H2 & _) & _).
  - split; simpl; try done. intros r. by left.
  - simpl. lia.
  - reflexivity.
  - split; [exact H1|exact H2].
Defined.

Lemma timeout_on_cancelled_parent_is_disarmed_witness :
  let h := Ctx.cancelFunc (Ctx.withCancel Ctx.initial 0).1 1 in
  let t := Ctx.withTimeout h 1 in
  Ctx.h_err t.1 t.2 = Some Ctx.ContextCancelledError.
Proof.
  refine (proj1 (timeout_on_cancelled_parent_is_disarmed
    (Ctx.cancelFunc (Ctx.withCancel Ctx.initial 0).1 1) 1 Ctx.ContextCancelledError _ _)).
  - vm_compute. lia.
  - reflexivity.
Defined.

Lemma once_memoizes_first_function_witness :
  let f := OnceM.Await (OnceM.Return (OnceM.VResult 4)) in
  let m := OnceM.run [OnceM.CallDo f; OnceM.Tick;
                      OnceM.CallDo (OnceM.Return (OnceM.VResult 5)); OnceM.Tick] in
  OnceM.state (OnceM.once m) = 2
  ∧ OnceM.observe m (Some 0) = OnceM.Settled (OnceM.Fulfilled (OnceM.VResult 4)).
Proof.
  refine (proj2 (once_memoizes_first_function
    (OnceM.Await (OnceM.Return (OnceM.VResult 4)))
    [OnceM.Tick; OnceM.CallDo (OnceM.Return (OnceM.VResult 5)); OnceM.Tick]) _).
  simpl. lia.
Defined.

(** * Cancellation goes downwards only *)

Section ContextOrder.
Import Ctx CtxX CtxOrder.
Implicit Types (h : Heap) (r : CtxRef) (j : Job).

Lemma job_above_mono r r' j : r' ≤ r → job_above r j → job_above r' j.
Proof. intros Hle. destruct j; simpl; [lia|done]. Qed.

Lemma ordered_initial : ordered initial.
Proof. intros r. constructor. Qed.

Lemma ordered_h_cancel h r args : ordered h → ordered (h_cancel h r args).
Proof.
  intros Ho r'. destruct (h_cancel_spec h r args) as (_ & Hne & _ & _ & _ & Hq).
  destruct (decide (r = r')) as [<-|Hrr]; [|by rewrite Hne].
  destruct Hq as [[_ ->]|(_ & _ & _ & ->)]; [apply Ho|constructor].
Qed.

Lemma ordered_h_done_then h r j : ordered h → job_above r j → ordered (h_done_then h r j).
Proof.
  intros Ho Hj r'. unfold h_done_then.
  destruct (donePromise (done (fields (obj h r)))) as [[|]|]; simpl;
    (destruct (decide (r = r')) as [<-|Hrr];
     [rewrite fn_lookup_insert|rewrite fn_lookup_insert_ne by done]; simpl;
     first [apply Ho | (apply Forall_app; split; [apply Ho|by constructor])]).
Qed.

Lemma ordered_new_DefaultContext h (parent : option CtxRef) :
  ordered h → (∀ p, parent = Some p → p < next h) →
  ordered (new_DefaultContext h parent).1.
Proof.
  intros Ho Hp. unfold new_DefaultContext.
  set (h0 := mkHeap _ _ _ _ _).
  assert (ordered h0) as Ho0.
  { intros r. unfold h0. simpl. destruct (decide (next h = r)) as [<-|Hne].
    - rewrite fn_lookup_insert. constructor.
    - rewrite fn_lookup_insert_ne by done. apply Ho. }
  destruct parent as [p|]; [|done].
  destruct (h_err h0 p); simpl.
  - by apply ordered_h_cancel.
  - apply ordered_h_done_then; [done|]. simpl. by apply Hp.
Qed.

(** Running callbacks that cancel contexts created after [r] never touches
    [r] or anything created before it. *)
Lemma run_above r (n : nat) h :
  ordered h → Forall (job_above r) (microtasks h) →
  ∀ r', r' ≤ r → obj (run_microtasks n h) r' = obj h r'.
Proof.
  revert h. induction n as [|n IH]; intros h Ho Hq r' Hle; [done|].
  unfold run_microtasks in *. rewrite Nat.iter_succ_r.
  unfold run_microtask at 2.
  destruct (microtasks h) as [|j rest] eqn:Hm; [by apply IH; [|rewrite Hm|]|].
  inversion_clear Hq as [|? ? Hj Hrest].
  set (h0 := mkHeap _ _ _ _ _).
  assert (ordered h0) as Ho0 by done.
  destruct j as [child parent|id]; simpl.
  - simpl in Hj.
    destruct (h_cancel_spec h0 child (Argument (h_err h0 parent)))
      as (_ & Hne & _ & _ & _ & Hq').
    rewrite IH; [apply Hne; lia|by apply ordered_h_cancel| |done].
    destruct Hq' as [[-> _]|(_ & _ & -> & _)]; [done|].
    apply Forall_app. split; [done|].
    eapply List.Forall_impl; [|exact (Ho child)].
    intros j'. apply job_above_mono. lia.
  - rewrite IH; [done| |done|done]. intros r0. apply Ho.
Qed.

(** X15: cancellation goes downwards only.  Cancelling a context, and
    running any number of the microtasks this queues, changes no context
    created before it, and changes the cancelled context itself no
    further. *)
Theorem cancellation_spares_older_contexts h r (args : CancelArgs) (n : nat) :
  ordered h → Forall (job_above r) (microtasks h) →
  let h1 := h_cancel h r args in
  let h' := run_microtasks n h1 in
  (∀ r', r' < r → obj h' r' = obj h r') ∧ obj h' r = obj h1 r.
Proof.
  intros Ho Hq h1 h'.
  assert (Forall (job_above r) (microtasks h1)) as Hq1.
  { destruct (h_cancel_spec h r args) as (_ & _ & _ & _ & _ & Hq').
    fold h1 in Hq'. destruct Hq' as [[-> _]|(_ & _ & -> & _)]; [done|].
    apply Forall_app. split; [done|apply Ho]. }
  pose proof (run_above r n h1 (ordered_h_cancel h r args Ho) Hq1) as Hrun.
  fold h' in Hrun. split.
  - intros r' Hlt. rewrite Hrun by lia.
    destruct (h_cancel_spec h r args) as (_ & Hne & _). apply Hne. lia.
  - by apply Hrun.
Qed.

End ContextOrder.

Lemma cancellation_spares_older_contexts_witness :
  let h2 := (Ctx.withCancel (Ctx.withCancel Ctx.initial 0).1 1).1 in
  let h' := CtxX.run_microtasks 3 (Ctx.h_cancel h2 2 Ctx.NoArgument) in
  Ctx.obj h' 1 = Ctx.obj h2 1 ∧ Ctx.obj h' 0 = Ctx.obj h2 0.
Proof.
  pose proof (cancellation_spares_older_contexts
    (Ctx.withCancel (Ctx.withCancel Ctx.initial 0).1 1).1 2 Ctx.NoArgument 3) as H.
  destruct H as [H _].
  - apply ordered_new_DefaultContext; [|intros p [= <-]; simpl; lia].
    apply ordered_new_DefaultContext; [apply ordered_initial|intros p [= <-]; simpl; lia].
  - constructor.
  - split; apply H; lia.
Defined.

(** * Properties of scope *)

Section DeferFacts.
Import Defer.

Lemma trace_unfold id more throws :
  trace (mkDeferred id more throws) = Ran id :: caught throws ++ traces more.
Proof.
  simpl. apply (f_equal (cons (Ran id))), (f_equal (app (caught throws))).
  induction more as [|x l IH]; [done|]. simpl. by rewrite IH.
Qed.

Lemma size_unfold id more throws : size (mkDeferred id more throws) = S (sizes more).
Proof.
  simpl. apply (f_equal S).
  induction more as [|x l IH]; [done|]. simpl. by rewrite IH.
Qed.

Lemma traces_app (l1 l2 : list Deferred) : traces (l1 ++ l2) = traces l2 ++ traces l1.
Proof.
  induction l1 as [|x l IH]; simpl; [by rewrite app_nil_r|].
  by rewrite IH, app_assoc.
Qed.

Lemma sizes_app (l1 l2 : list Deferred) : sizes (l1 ++ l2) = sizes l1 + sizes l2.
Proof. induction l1 as [|x l IH]; simpl; [done|]. rewrite IH. lia. Qed.

Lemma drain_empty (fuel : nat) : drain fuel [] = Some [].
Proof. by destruct fuel. Qed.

Lemma drain_pop (fuel : nat) (below : list Deferred) id more throws :
  drain (S fuel) (below ++ [mkDeferred id more throws])
  = match drain fuel (below ++ more) with
    | Some events => Some (Ran id :: caught throws ++ events)
    | None => None
    end.
Proof.
  change (drain (S fuel) (below ++ [mkDeferred id more throws]))
    with (match rev (below ++ [mkDeferred id more throws]) with
          | [] => Some []
          | mkDeferred id' more' throws' :: below' =>
              match drain fuel (rev below' ++ more') with
              | Some events => Some (Ran id' :: caught throws' ++ events)
              | None => None
              end
          end).
  rewrite rev_app_distr. simpl. by rewrite rev_involutive.
Qed.

(** With enough fuel the loop runs every function, last registered first. *)
Lemma drain_traces (fuel : nat) (task : list Deferred) :
  sizes task ≤ fuel → drain fuel task = Some (traces task).
Proof.
  revert task. induction fuel as [|fuel IH]; intros task Hsize.
  - destruct task as [|[id more throws] rest]; [done|].
    simpl in Hsize. lia.
  - destruct (rev task) as [|[id more throws] below] eqn:Hrev.
    + apply (f_equal (@rev _)) in Hrev. rewrite rev_involutive in Hrev. subst task.
      apply drain_empty.
    + assert (task = rev below ++ [mkDeferred id more throws]) as ->.
      { apply (f_equal (@rev _)) in Hrev. by rewrite rev_involutive in Hrev. }
      assert (sizes [mkDeferred id more throws] = S (sizes more)) as Hone.
      { cbn [sizes]. rewrite size_unfold. lia. }
      rewrite sizes_app, Hone in Hsize.
      rewrite drain_pop. rewrite IH by (rewrite sizes_app; lia).
      rewrite !traces_app. cbn [traces].
      rewrite (trace_unfold id more throws). simpl.
      by rewrite <- app_assoc.
Qed.

(** X16: [scope] runs every registered cleanup function, the most recently
    registered first; functions registered by a cleanup function run right
    after it, again last first; an error thrown by a cleanup function is
    logged and the others still run; and the outcome of [scope] is that of
    the function it was given, thrown error included.  The loop ends
    within as many iterations as functions were registered in all. *)
Theorem scope_runs_cleanups_last_first (fuel : nat) (main : Main) :
  sizes (registers main) ≤ fuel →
  scope fuel main = Some (traces (registers main), outcome main).
Proof. intros Hfuel. unfold scope. by rewrite drain_traces. Qed.

End DeferFacts.

Lemma scope_runs_cleanups_last_first_witness :
  Defer.scope 4 (Defer.mkMain
    [Defer.mkDeferred 1 [] None;
     Defer.mkDeferred 2 [Defer.mkDeferred 3 [] None; Defer.mkDeferred 4 [] None] (Some 7)]
    (Some 9))
  = Some ([Defer.Ran 2; Defer.ConsoleError 7; Defer.Ran 4; Defer.Ran 3; Defer.Ran 1],
          Some 9).
Proof.
  refine (scope_runs_cleanups_last_first 4 (Defer.mkMain
    [Defer.mkDeferred 1 [] None;
     Defer.mkDeferred 2 [Defer.mkDeferred 3 [] None; Defer.mkDeferred 4 [] None] (Some 7)]
    (Some 9)) _).
  simpl. lia.
Defined.

(** * Properties of Cond *)

Section CondFacts.
Import CondM.

Lemma signals_spec (n : nat) (c : Cond) :
  signals n c = (mkCond (drop n (waiters c)), take n (waiters c)).
Proof.
  revert c. induction n as [|n IH]; intros [ws]; simpl; [done|].
  unfold signal. simpl. destruct ws as [|w rest]; simpl.
  - rewrite IH. simpl. by rewrite drop_nil, take_nil.
  - by rewrite IH.
Qed.

(** X17: [signal] wakes the longest-waiting waiter only, so [n] signals
    wake the first [n] waiters in arrival order and leave the others
    queued; [broadcast] schedules exactly what [waitersCount] signals
    would, in the same order, and empties the queue; on an empty queue
    both do nothing. *)
Theorem broadcast_is_repeated_signal (c : Cond) (n : nat) :
  signals n c = (mkCond (drop n (waiters c)), take n (waiters c))
  ∧ broadcast c = signals (waitersCount c) c
  ∧ waitersCount (broadcast c).1 = 0
  ∧ (broadcast c).2 = waiters c.
Proof.
  split; [apply signals_spec|].
  rewrite signals_spec. unfold broadcast, waitersCount.
  destruct c as [[|w ws]]; simpl; [done|].
  by rewrite drop_all, firstn_all.
Qed.

End CondFacts.
